(** * spotify-backup: tagging and export scripts

    A shallow embedding of [add_spotify_tags.py] (the track index, the track
    resolver [Tagger.get_spotify_info] and the tag reconciler
    [Tagger.write_tags]) and of the folder-building loop of
    [generate_oggify.py], followed by the properties established about them.

    Conventions.
    - Python values read from a JSON export are values of [pyval]; a Python
      [dict] is an association list in insertion order whose keys are
      pairwise distinct.  JSON numbers are integers here;
      floating-point values are not modelled.
    - A Python function that may raise returns a [result]; code with effects
      (logging, network requests, saving a file) lives in the monad [M],
      which threads the files on disk and the trace of effects, and keeps
      both when an exception is raised.
    - The remote API client ([SpotifyAPI]), HTTP ([requests.get]) and the
      picture codec are collaborators of the scripts: they are parameters
      of the model (records [Tagger] and [World]). *)

From Stdlib Require Import ZArith List String Ascii Bool Lia DecimalString.
From stdpp Require Import gmap strings.
Import ListNotations.
Local Open Scope string_scope.
Local Open Scope list_scope.

(** ** Python values *)

Unset Elimination Schemes.
Inductive pyval : Type :=
| PNone
| PBool (b : bool)
| PInt (z : Z)
| PStr (s : string)
| PList (l : list pyval)
| PDict (d : list (string * pyval)).
Set Elimination Schemes.

(** Induction over values, with the hypothesis available for every item of
    a list and every value of a dict. *)
Definition pyval_ind (P : pyval -> Prop)
  (HNone : P PNone)
  (HBool : forall b, P (PBool b))
  (HInt : forall z, P (PInt z))
  (HStr : forall s, P (PStr s))
  (HList : forall l, Forall P l -> P (PList l))
  (HDict : forall d, Forall (fun kv => P (snd kv)) d -> P (PDict d))
  : forall v, P v :=
  fix go (v : pyval) : P v :=
    match v with
    | PNone => HNone
    | PBool b => HBool b
    | PInt z => HInt z
    | PStr s => HStr s
    | PList l =>
        HList l ((fix items (l : list pyval) : Forall P l :=
                    match l with
                    | [] => @List.Forall_nil _ _
                    | x :: l' => @List.Forall_cons _ P x l' (go x) (items l')
                    end) l)
    | PDict d =>
        HDict d ((fix entries (d : list (string * pyval))
                    : Forall (fun kv => P (snd kv)) d :=
                    match d with
                    | [] => @List.Forall_nil _ _
                    | kv :: d' => @List.Forall_cons _ (fun kv => P (snd kv)) kv d' (go (snd kv)) (entries d')
                    end) d)
    end.

Inductive exn : Type :=
| KeyError (k : pyval)
| IndexError
| TypeError
| AttributeError
| ValueError
| OtherException (what : string)   (* any other subclass of Exception *)
| SystemExit (code : Z).           (* a BaseException, not an Exception *)

(** [except Exception] catches every exception but the ones that derive
    from [BaseException] only. *)
Definition is_Exception (e : exn) : bool :=
  match e with
  | SystemExit _ => false
  | _ => true
  end.

Inductive result (A : Type) : Type :=
| Ok (a : A)
| Raise (e : exn).
Arguments Ok {A} a.
Arguments Raise {A} e.

Definition rbind {A B} (r : result A) (k : A -> result B) : result B :=
  match r with
  | Ok a => k a
  | Raise e => Raise e
  end.

Declare Scope result_scope.
Delimit Scope result_scope with res.
Notation "x <-? r ; k" := (rbind r (fun x => k))
  (at level 100, r at next level, right associativity) : result_scope.

(** *** Dictionaries *)

Fixpoint dict_find (k : string) (d : list (string * pyval)) : option pyval :=
  match d with
  | [] => None
  | (k', v) :: d' => if String.eqb k k' then Some v else dict_find k d'
  end.

(** [d[k] = v]: an existing key keeps its position. *)
Fixpoint dict_set (k : string) (v : pyval) (d : list (string * pyval))
  : list (string * pyval) :=
  match d with
  | [] => [(k, v)]
  | (k', v') :: d' =>
      if String.eqb k k' then (k, v) :: d' else (k', v') :: dict_set k v d'
  end.

(** *** Operators *)

(** [v[k]] for a string [k]. *)
Definition getitem (v : pyval) (k : string) : result pyval :=
  match v with
  | PDict d =>
      match dict_find k d with
      | Some w => Ok w
      | None => Raise (KeyError (PStr k))
      end
  | _ => Raise TypeError
  end.

Fixpoint string_to_chars (s : string) : list pyval :=
  match s with
  | EmptyString => []
  | String c s' => PStr (String c EmptyString) :: string_to_chars s'
  end.

(** [v[i]] for a non-negative integer [i]. *)
Definition getindex (v : pyval) (i : nat) : result pyval :=
  match v with
  | PList l =>
      match nth_error l i with
      | Some w => Ok w
      | None => Raise IndexError
      end
  | PStr s =>
      match nth_error (string_to_chars s) i with
      | Some w => Ok w
      | None => Raise IndexError
      end
  | PDict _ => Raise (KeyError (PInt (Z.of_nat i)))
  | _ => Raise TypeError
  end.

(** [len(v)]. *)
Definition py_len (v : pyval) : result nat :=
  match v with
  | PList l => Ok (List.length l)
  | PStr s => Ok (String.length s)
  | PDict d => Ok (List.length d)
  | _ => Raise TypeError
  end.

(** [v[0:4]]. *)
Definition slice_0_4 (v : pyval) : result pyval :=
  match v with
  | PStr s => Ok (PStr (String.substring 0 4 s))
  | PList l => Ok (PList (firstn 4 l))
  | _ => Raise TypeError
  end.

(** The items visited by [for x in v]. *)
Definition py_iter (v : pyval) : result (list pyval) :=
  match v with
  | PList l => Ok l
  | PStr s => Ok (string_to_chars s)
  | PDict d => Ok (map (fun kv => PStr (fst kv)) d)
  | _ => Raise TypeError
  end.

(** [k in v] for a string [k]. *)
Definition py_contains (k : string) (v : pyval) : result bool :=
  match v with
  | PDict d => Ok (match dict_find k d with Some _ => true | None => false end)
  | PList l =>
      Ok (existsb (fun w => match w with PStr s => String.eqb k s | _ => false end) l)
  | PStr s => Ok (match String.index 0 k s with Some _ => true | None => false end)
  | _ => Raise TypeError
  end.

(** Truth value of an object ([if v:], [not v]). *)
Definition truthy (v : pyval) : bool :=
  match v with
  | PNone => false
  | PBool b => b
  | PInt z => negb (Z.eqb z 0)
  | PStr s => negb (String.eqb s "")
  | PList l => match l with [] => false | _ => true end
  | PDict d => match d with [] => false | _ => true end
  end.

(** [a == b].  [True] and [False] are the integers 1 and 0; lists are equal
    item by item; two dicts are equal when they have as many items and
    every item of the first has its key in the second, with an equal
    value. *)
Fixpoint py_eqb (a b : pyval) {struct a} : bool :=
  match a, b with
  | PNone, PNone => true
  | PBool x, PBool y => Bool.eqb x y
  | PBool x, PInt y => Z.eqb (if x then 1 else 0) y
  | PInt x, PBool y => Z.eqb x (if y then 1 else 0)
  | PInt x, PInt y => Z.eqb x y
  | PStr x, PStr y => String.eqb x y
  | PList l1, PList l2 =>
      (fix eq_items (l1 l2 : list pyval) {struct l1} : bool :=
         match l1, l2 with
         | [], [] => true
         | x :: l1', y :: l2' => py_eqb x y && eq_items l1' l2'
         | _, _ => false
         end) l1 l2
  | PDict d1, PDict d2 =>
      Nat.eqb (List.length d1) (List.length d2) &&
      (fix eq_entries (d : list (string * pyval)) : bool :=
         match d with
         | [] => true
         | (k, v) :: d' =>
             existsb (fun kw => String.eqb k (fst kw) && py_eqb v (snd kw)) d2
             && eq_entries d'
         end) d1
  | _, _ => false
  end.

(** Equality of two Python lists, as used by [arr != ogg.get(var, [])]. *)
Fixpoint list_eqb (l1 l2 : list pyval) : bool :=
  match l1, l2 with
  | [], [] => true
  | x :: l1', y :: l2' => py_eqb x y && list_eqb l1' l2'
  | _, _ => false
  end.

(** [str(v)].  The text of a list or a dict is Python's [repr], which is
    not modelled: it is the parameter [repr]. *)
Definition py_str (repr : pyval -> string) (v : pyval) : string :=
  match v with
  | PNone => "None"
  | PBool true => "True"
  | PBool false => "False"
  | PInt z => NilZero.string_of_int (Z.to_int z)
  | PStr s => s
  | _ => repr v
  end.

(** ** Vorbis comments

    [ogg.tags] is mutagen's [VCommentDict]: a list of (key, value) pairs,
    read through a dictionary interface whose keys are compared without
    regard to case.  A key is present exactly when some pair carries it, so
    the value list of a present key is never empty. *)

Definition lower_ascii (c : ascii) : ascii :=
  let n := nat_of_ascii c in
  if (65 <=? n)%nat && (n <=? 90)%nat then ascii_of_nat (n + 32) else c.

Fixpoint lower (s : string) : string :=
  match s with
  | EmptyString => EmptyString
  | String c s' => String (lower_ascii c) (lower s')
  end.

Definition vcomment : Type := list (string * pyval).

Definition key_is (key : string) (kv : string * pyval) : bool :=
  String.eqb (lower (fst kv)) (lower key).

(** The values stored under [key], in order ([KeyError] when empty). *)
Definition tag_values (key : string) (t : vcomment) : list pyval :=
  map snd (List.filter (key_is key) t).

(** [ogg.get(key, [])]. *)
Definition tags_get (key : string) (t : vcomment) : list pyval :=
  tag_values key t.

(** [ogg.get(key)]: [None] when the key is absent. *)
Definition tags_get_opt (key : string) (t : vcomment) : pyval :=
  match tag_values key t with
  | [] => PNone
  | vs => PList vs
  end.

(** [key in ogg.tags]. *)
Definition tags_contains (key : string) (t : vcomment) : bool :=
  existsb (key_is key) t.

(** [ogg[key] = values]: the old pairs of the key are removed, the new ones
    are appended. *)
Definition tags_set (key : string) (values : list pyval) (t : vcomment)
  : vcomment :=
  List.filter (fun kv => negb (key_is key kv)) t ++ map (fun v => (key, v)) values.

(** [save] refuses a comment that holds a value that is not text. *)
Definition is_text (v : pyval) : bool :=
  match v with PStr _ => true | _ => false end.

Definition vcomment_valid (t : vcomment) : bool :=
  forallb (fun kv => is_text (snd kv)) t.

(** ** Effects *)

Inductive level : Type := INFO | ERROR.

(** What a log record reports; the exact wording is not modelled.  Calls to
    [logging.debug] are below the configured level (20) and emit nothing. *)
Inductive message : Type :=
| MsgException (err : exn)
| MsgNoSpotifyId (filename : string)
| MsgCannotGetInfo (spotify_id : pyval) (filename : string)
| MsgFetching (url width height : pyval)
| MsgSetting (var : string) (old : pyval) (new : list pyval)
| MsgSaving (filename : string).

Inductive event : Type :=
| RemoteGet (path : string) (tries : nat)    (* self.spotify.get(path, tries=..) *)
| HttpGet (url : pyval)                      (* requests.get(url) *)
| Log (lvl : level) (msg : message)          (* logging.info / logging.error *)
| Save (filename : string) (tags : vcomment) (* ogg.save() *).

(** The text of the Vorbis comment of each .ogg file, and what the run has
    done so far (oldest event first). *)
Record state : Type := mkState {
  disk : gmap string (list (string * string));
  trace : list event
}.

Definition M (A : Type) : Type := state -> result A * state.

Definition ret {A} (a : A) : M A := fun s => (Ok a, s).

Definition bind {A B} (m : M A) (k : A -> M B) : M B :=
  fun s =>
    match m s with
    | (Ok a, s') => k a s'
    | (Raise e, s') => (Raise e, s')
    end.

Definition lift {A} (r : result A) : M A := fun s => (r, s).

Definition emit (ev : event) : M unit :=
  fun s => (Ok tt, mkState (disk s) (trace s ++ [ev])).

Definition log (lvl : level) (msg : message) : M unit := emit (Log lvl msg).

(** [try: body except Exception as err: handler(err)]. *)
Definition try_except {A} (body : M A) (handler : exn -> M A) : M A :=
  fun s =>
    match body s with
    | (Raise e, s') => if is_Exception e then handler e s' else (Raise e, s')
    | r => r
    end.

Declare Scope M_scope.
Delimit Scope M_scope with M.
Notation "x <- m ;; k" := (bind m (fun x => k))
  (at level 100, m at next level, right associativity) : M_scope.
Notation "m ;; k" := (bind m (fun _ => k))
  (at level 100, right associativity) : M_scope.

(** ** Collaborators *)

(** [SpotifyAPI.get(path, tries=n)]: the decoded JSON answer, or an
    exception.  The class comes from [spotify_backup.py], which is not among
    the sources at hand; the resolver is modelled for any such client. *)
Definition SpotifyAPI : Type := string -> nat -> result pyval.

Record response : Type := mkResponse {
  content : string;        (* r.content *)
  content_type : pyval     (* r.headers.get('content-type') *)
}.

(** mutagen's [Picture], as filled in by [write_tags]. *)
Record Picture : Type := mkPicture {
  pic_data : string;
  pic_description : string;
  pic_type : Z;
  pic_width : pyval;
  pic_height : pyval;
  pic_mime : pyval
}.

Record World : Type := mkWorld {
  repr : pyval -> string;                    (* repr() of a list or a dict *)
  requests_get : pyval -> result response;   (* requests.get(url) *)
  picture_write : Picture -> result string;  (* picture.write() *)
  b64encode : string -> string               (* base64.b64encode(..).decode("ascii") *)
}.

(** ** The track cache *)

(** The hashable values: keys of [track_cache]. *)
Inductive pykey : Type :=
| KNone
| KInt (z : Z)
| KStr (s : string).

#[global] Instance pykey_eq_dec : EqDecision pykey.
Proof. solve_decision. Defined.

#[global] Instance pykey_countable : Countable pykey.
Proof.
  refine (inj_countable'
            (fun k => match k with
                      | KNone => inl tt
                      | KInt z => inr (inl z)
                      | KStr s => inr (inr s)
                      end)
            (fun x => match x with
                      | inl _ => KNone
                      | inr (inl z) => KInt z
                      | inr (inr s) => KStr s
                      end) _).
  intros []; reflexivity.
Defined.

(** Hashing a value to use it as a key; lists and dicts are unhashable. *)
Definition to_key (v : pyval) : result pykey :=
  match v with
  | PNone => Ok KNone
  | PBool b => Ok (KInt (if b then 1 else 0))
  | PInt z => Ok (KInt z)
  | PStr s => Ok (KStr s)
  | _ => Raise TypeError
  end.

(** ** [class SpotifyInfo] *)

Record SpotifyInfo : Type := mkInfo {
  title : pyval;
  artist : pyval;
  album : pyval;
  tracknumber : pyval;
  image : pyval;
  year : pyval;
  spotify_id : pyval
}.

(** [SpotifyInfo()]: every attribute is [None]. *)
Definition SpotifyInfo_init : SpotifyInfo :=
  mkInfo PNone PNone PNone PNone PNone PNone PNone.

(** [vars(info)]: the attribute names, in the order [__init__] creates
    them. *)
Definition vars : list string :=
  ["title"; "artist"; "album"; "tracknumber"; "image"; "year"; "spotify_id"].

(** [info[name]] for a name of [vars]. *)
Definition info_get (info : SpotifyInfo) (name : string) : pyval :=
  if String.eqb name "title" then title info
  else if String.eqb name "artist" then artist info
  else if String.eqb name "album" then album info
  else if String.eqb name "tracknumber" then tracknumber info
  else if String.eqb name "image" then image info
  else if String.eqb name "year" then year info
  else if String.eqb name "spotify_id" then spotify_id info
  else PNone.

(** ** [class Tagger] *)

Record Tagger : Type := mkTagger {
  cache : gmap pykey pyval;
  spotify : option SpotifyAPI
}.

Local Open Scope M_scope.

(** [self.spotify.get(path, tries=tries)]. *)
Definition remote_get (api : SpotifyAPI) (path : string) (tries : nat)
  : M pyval :=
  emit (RemoteGet path tries) ;; lift (api path tries).

(** The path [get_spotify_info] asks the API for:
    [f'tracks/{spotify_id}aa']. *)
Definition track_path (w : World) (spotify_id : pyval) : string :=
  "tracks/" +:+ py_str (repr w) spotify_id +:+ "aa".

(** Lines 49-56: the entry comes from the cache, else from the API. *)
Definition fetch_entry (w : World) (tg : Tagger) (spotify_id : pyval)
  : M pyval :=
  key <- lift (to_key spotify_id) ;;
  match cache tg !! key with
  | Some entry => ret entry
  | None =>
      match spotify tg with
      | Some api =>
          try_except (remote_get api (track_path w spotify_id) 2)
                     (fun err => log ERROR (MsgException err) ;; ret PNone)
      | None => ret PNone
      end
  end.

(** [[a['name'] for a in items]]. *)
Fixpoint names_of (items : list pyval) : result (list pyval) :=
  match items with
  | [] => Ok []
  | a :: rest =>
      (n <-? getitem a "name";
       ns <-? names_of rest;
       Ok (n :: ns))%res
  end.

(** Lines 63-66: the image kept from [entry['album']['images']]. *)
Definition pick_image (images : pyval) : result pyval :=
  (n <-? py_len images;
   if (1 <? n)%nat then getindex images 1
   else if (n =? 1)%nat then getindex images 0
   else Ok PNone)%res.

(** Lines 61-72: the record built from an entry. *)
Definition build_info (w : World) (spotify_id : pyval) (entry : pyval)
  : result SpotifyInfo :=
  (alb <-? getitem entry "album";
   images <-? getitem alb "images";
   img <-? pick_image images;
   tn <-? getitem entry "track_number";
   alb_name <-? getitem alb "name";
   date <-? getitem alb "release_date";
   yr <-? slice_0_4 date;
   arts <-? getitem entry "artists";
   items <-? py_iter arts;
   names <-? names_of items;
   ttl <-? getitem entry "name";
   Ok {| title := ttl;
         artist := PList names;
         album := alb_name;
         tracknumber := PStr (py_str (repr w) tn);
         image := img;
         year := yr;
         spotify_id := spotify_id |})%res.

Definition get_spotify_info (w : World) (tg : Tagger) (spotify_id : pyval)
  : M (option SpotifyInfo) :=
  entry <- fetch_entry w tg spotify_id ;;
  match entry with
  | PNone => ret None
  | _ => info <- lift (build_info w spotify_id entry) ;; ret (Some info)
  end.

(** The tag that holds the embedded cover picture. *)
Definition cover_key : string := "metadata_block_picture".

(** Lines 97-112: the cover picture is fetched and stored. *)
Definition fetch_picture (w : World) (img : pyval) (ogg : vcomment)
  : M vcomment :=
  url <- lift (getitem img "url") ;;
  width <- lift (getitem img "width") ;;
  height <- lift (getitem img "height") ;;
  log INFO (MsgFetching url width height) ;;
  emit (HttpGet url) ;;
  r <- lift (requests_get w url) ;;
  picture_data <- lift (picture_write w
                          {| pic_data := content r;
                             pic_description := "coverart";
                             pic_type := 3;
                             pic_width := width;
                             pic_height := height;
                             pic_mime := content_type r |}) ;;
  let vcomment_value := PStr (b64encode w picture_data) in
  ret (tags_set cover_key [vcomment_value] ogg).

(** [v is None]. *)
Definition is_none (v : pyval) : bool :=
  match v with PNone => true | _ => false end.

(** [v if isinstance(v, list) else [v]]. *)
Definition as_list (v : pyval) : list pyval :=
  match v with PList l => l | _ => [v] end.

(** One turn of the loop of lines 92-119, on the tags and the [changed]
    flag. *)
Definition reconcile_var (w : World) (info : SpotifyInfo)
    (acc : vcomment * bool) (var : string) : M (vcomment * bool) :=
  let (ogg, changed) := acc in
  if is_none (info_get info var) then ret (ogg, changed)
  else if String.eqb var "image" then
    if negb (truthy (tags_get_opt cover_key ogg)) then
      ogg' <- fetch_picture w (image info) ogg ;;
      ret (ogg', true)
    else ret (ogg, changed)
  else
    let arr := as_list (info_get info var) in
    if negb (list_eqb arr (tags_get var ogg)) then
      log INFO (MsgSetting var (tags_get_opt var ogg) arr) ;;
      ret (tags_set var arr ogg, true)
    else ret (ogg, changed).

Fixpoint foldM {A B} (f : A -> B -> M A) (l : list B) (a : A) : M A :=
  match l with
  | [] => ret a
  | b :: l' => a' <- f a b ;; foldM f l' a'
  end.

(** Lines 91-119: the tags brought in line with the record, and whether
    anything changed. *)
Definition reconcile (w : World) (info : SpotifyInfo) (ogg : vcomment)
  : M (vcomment * bool) :=
  foldM (reconcile_var w info) vars (ogg, false).

(** [OggVorbis(filename)]: the comment of the file, every value a text. *)
Definition open_ogg (filename : string) : M vcomment :=
  fun s =>
    match disk s !! filename with
    | Some txt => (Ok (map (fun kv => (fst kv, PStr (snd kv))) txt), s)
    | None => (Raise (OtherException "MutagenError"), s)
    end.

Definition text_of (v : pyval) : string :=
  match v with PStr s => s | _ => "" end.

(** [ogg.save()]: refused when a value is not a text. *)
Definition save_ogg (filename : string) (ogg : vcomment) : M unit :=
  fun s =>
    if vcomment_valid ogg then
      (Ok tt,
       mkState (<[filename := map (fun kv => (fst kv, text_of (snd kv))) ogg]>
                  (disk s))
               (trace s ++ [Save filename ogg]))
    else (Raise ValueError, s).

Definition write_tags (w : World) (tg : Tagger) (filename : string) : M unit :=
  ogg <- open_ogg filename ;;
  if negb (tags_contains "spotify_id" ogg) then
    log INFO (MsgNoSpotifyId filename)
  else
    spotify_id <- lift (getindex (tags_get_opt "spotify_id" ogg) 0) ;;
    info <- get_spotify_info w tg spotify_id ;;
    match info with
    | None => log ERROR (MsgCannotGetInfo spotify_id filename)
    | Some info =>
        r <- reconcile w info ogg ;;
        if snd r then
          log INFO (MsgSaving filename) ;;
          save_ogg filename (fst r)
        else ret tt
    end.

(** ** The track index (lines 148-163 of [main])

    The two queries are jsonpath-ng expressions.  [$..name] visits the
    document and every value nested in it, parents before children, items
    and keys in order, and yields the value of field [name] of each dict
    that has one; [where [field]] keeps the matches that are dicts with
    that field.  A field whose value is [null] counts as missing for
    jsonpath-ng. *)

Definition field_match (name : string) (v : pyval) : list pyval :=
  match v with
  | PDict d =>
      match dict_find name d with
      | Some PNone | None => []
      | Some x => [x]
      end
  | _ => []
  end.

Fixpoint descendants (name : string) (v : pyval) : list pyval :=
  field_match name v ++
  match v with
  | PList l =>
      (fix items (l : list pyval) : list pyval :=
         match l with
         | [] => []
         | x :: l' => descendants name x ++ items l'
         end) l
  | PDict d =>
      (fix entries (d : list (string * pyval)) : list pyval :=
         match d with
         | [] => []
         | (_, x) :: d' => descendants name x ++ entries d'
         end) d
  | _ => []
  end.

Definition has_field (field : string) (v : pyval) : bool :=
  match field_match field v with
  | [] => false
  | _ => true
  end.

(** [parse("$..name where [field]").find(jsonobj)], as the matched
    values. *)
Definition find_where (name field : string) (jsonobj : pyval) : list pyval :=
  List.filter (has_field field) (descendants name jsonobj).

(** [v.get(k)]. *)
Definition dict_get (v : pyval) (k : string) : result pyval :=
  match v with
  | PDict d =>
      match dict_find k d with
      | Some x => Ok x
      | None => Ok PNone
      end
  | _ => Raise AttributeError
  end.

(** [v[k] = x]. *)
Definition setitem (v : pyval) (k : string) (x : pyval) : result pyval :=
  match v with
  | PDict d => Ok (PDict (dict_set k x d))
  | _ => Raise TypeError
  end.

(** [track_cache[key] = value]. *)
Definition cache_store (key value : pyval) (track_cache : gmap pykey pyval)
  : result (gmap pykey pyval) :=
  (k <-? to_key key; Ok (<[k := value]> track_cache))%res.

Fixpoint foldR {A B} (f : A -> B -> result A) (l : list B) (a : A) : result A :=
  match l with
  | [] => Ok a
  | b :: l' => (a' <-? f a b; foldR f l' a')%res
  end.

(** Lines 154-156. *)
Definition index_tracks (jsonobj : pyval) (track_cache : gmap pykey pyval)
  : result (gmap pykey pyval) :=
  foldR (fun c value => (id <-? dict_get value "id"; cache_store id value c)%res)
        (find_where "track" "id" jsonobj) track_cache.

(** Lines 160-163, for one album. *)
Definition index_album (track_cache : gmap pykey pyval) (value : pyval)
  : result (gmap pykey pyval) :=
  (tracks <-? getitem value "tracks";
   items <-? getitem tracks "items";
   l <-? py_iter items;
   foldR (fun c track =>
            (t <-? setitem track "album" value;
             id <-? dict_get t "id";
             cache_store id t c)%res) l track_cache)%res.

(** Lines 158-163. *)
Definition index_albums (jsonobj : pyval) (track_cache : gmap pykey pyval)
  : result (gmap pykey pyval) :=
  foldR index_album (find_where "album" "tracks" jsonobj) track_cache.

(** The cache built from the export document. *)
Definition build_index (jsonobj : pyval) : result (gmap pykey pyval) :=
  (c <-? index_tracks jsonobj ∅; index_albums jsonobj c)%res.

(** [main], after the arguments are parsed and the API handle is made:
    [json] is the decoded [--json] file when the option is given, [files]
    the files to tag. *)
Definition main (w : World) (api : option SpotifyAPI) (json : option pyval)
    (files : list string) : M unit :=
  track_cache <- lift (match json with
                       | Some jsonobj => build_index jsonobj
                       | None => Ok ∅
                       end) ;;
  let tagger := mkTagger track_cache api in
  foldM (fun _ fname => write_tags w tagger fname) files tt.

Definition run {A} (m : M A) (files : gmap string (list (string * string)))
  : result A * state :=
  m (mkState files []).

(** ** [generate_oggify.py]: the folders (lines 43-55 and 75-109)

    The [logging.info] calls of the loop are left out. *)

Record Folder : Type := mkFolder {
  name : pyval;
  songs : list string
}.

(** [Folder(name)]. *)
Definition Folder_init (name : pyval) : Folder := mkFolder name [].

Definition track_prefix : string := "spotify:track:".

(** [folder.add_song(spotify_id)]. *)
Definition add_song (folder : Folder) (spotify_id : pyval) : result Folder :=
  match spotify_id with
  | PStr s =>
      if String.prefix track_prefix s
      then Ok (mkFolder (name folder) (songs folder ++ [s]))
      else Ok folder
  | _ => Raise AttributeError
  end.

(** The command-line arguments the loop reads.  [str_lower] is Python's
    [str.lower]. *)
Record Args : Type := mkArgs {
  playlists : bool;
  albums : bool;
  filter_arg : option string;
  owner : option string;
  str_lower : string -> string
}.

(** [sep.join(items)]. *)
Fixpoint join (sep : string) (items : list pyval) : result string :=
  match items with
  | [] => Ok ""
  | PStr s :: rest =>
      match rest with
      | [] => Ok s
      | _ => (r <-? join sep rest; Ok (s +:+ sep +:+ r))%res
      end
  | _ => Raise TypeError
  end.

Definition is_substring (sub s : string) : bool :=
  match String.index 0 sub s with
  | Some _ => true
  | None => false
  end.

(** Line 88: the name of an album folder. *)
Definition album_folder_name (w : World) (p : pyval) : result pyval :=
  (alb <-? getitem p "album";
   arts <-? getitem alb "artists";
   items <-? py_iter arts;
   names <-? names_of items;
   joined <-? join ", " names;
   alb_name <-? getitem alb "name";
   date <-? getitem alb "release_date";
   yr <-? slice_0_4 date;
   Ok (PStr (joined +:+ " - " +:+ py_str (repr w) alb_name +:+ " ("
               +:+ py_str (repr w) yr +:+ ")")))%res.

(** Lines 92-95: [true] when the candidate is skipped by the filter. *)
Definition skipped_by_filter (args : Args) (folder_name p : pyval)
  : result bool :=
  match filter_arg args with
  | None => Ok false
  | Some "" => Ok false
  | Some f =>
      match folder_name with
      | PStr n =>
          if negb (is_substring (str_lower args f) (str_lower args n)) then
            (has_id <-? py_contains "id" p;
             if negb has_id then Ok true
             else (id <-? getitem p "id"; Ok (negb (py_eqb id (PStr f)))))%res
          else Ok false
      | _ => Raise AttributeError
      end
  end.

(** Lines 96-99: [true] when the candidate is skipped for its owner. *)
Definition skipped_by_owner (args : Args) (p : pyval) : result bool :=
  match owner args with
  | None => Ok false
  | Some "" => Ok false
  | Some o =>
      (has_owner <-? py_contains "owner" p;
       if has_owner then
         (own <-? getitem p "owner";
          id <-? getitem own "id";
          Ok (negb (py_eqb id (PStr o))))
       else Ok false)%res
  end.

(** Line 106: the URI of an entry of the track list. *)
Definition track_uri (t : pyval) : result pyval :=
  (has_uri <-? py_contains "uri" t;
   if has_uri then getitem t "uri"
   else (tr <-? getitem t "track"; getitem tr "uri"))%res.

(** Lines 101-107: the folder of a candidate that is not skipped. *)
Definition collect (is_album : bool) (folder_name p : pyval) : result Folder :=
  (tracks <-? (if is_album
               then (alb <-? getitem p "album";
                     trs <-? getitem alb "tracks";
                     getitem trs "items")
               else getitem p "tracks");
   l <-? py_iter tracks;
   foldR (fun folder t => (uri <-? track_uri t; add_song folder uri)) l
         (Folder_init folder_name))%res.

(** The body of the loop of line 85 for one candidate. *)
Definition export_one (w : World) (args : Args) (folders : list Folder)
    (p : pyval) : result (list Folder) :=
  (is_album <-? py_contains "album" p;
   folder_name <-? (if is_album then album_folder_name w p
                    else getitem p "name");
   skip1 <-? skipped_by_filter args folder_name p;
   if skip1 then Ok folders
   else
     (skip2 <-? skipped_by_owner args p;
      if skip2 then Ok folders
      else
        (folder <-? collect is_album folder_name p;
         match songs folder with
         | [] => Ok folders
         | _ => Ok (folders ++ [folder])
         end)))%res.

(** Lines 77-83. *)
Definition things_to_export (args : Args) (jsonobj : pyval)
  : result (list pyval) :=
  (ps <-? (if playlists args
           then (v <-? getitem jsonobj "playlists"; py_iter v)
           else Ok []);
   als <-? (if albums args
            then (v <-? getitem jsonobj "albums"; py_iter v)
            else Ok []);
   Ok (ps ++ als))%res.

(** Lines 75-109: the folders built from the export document. *)
Definition export_folders (w : World) (args : Args) (jsonobj : pyval)
  : result (list Folder) :=
  (things <-? things_to_export args jsonobj;
   foldR (export_one w args) things [])%res.

(** ** Notions used by the statements *)

(** The tag a turn of the loop reads and may write. *)
Definition dep_key (var : string) : string :=
  if String.eqb var "image" then cover_key else var.

(** A turn of the loop for [var] has nothing to do on tags [t]. *)
Definition settled (info : SpotifyInfo) (var : string) (t : vcomment) : bool :=
  is_none (info_get info var)
  || (if String.eqb var "image" then truthy (tags_get_opt cover_key t)
      else list_eqb (as_list (info_get info var)) (tags_get var t)).

Fixpoint distinct (l : list string) : bool :=
  match l with
  | [] => true
  | k :: l' => negb (existsb (String.eqb k) l') && distinct l'
  end.

Definition not_http (ev : event) : Prop :=
  match ev with HttpGet _ => False | _ => True end.

(** A computation that writes no file. *)
Definition keeps_disk {A} (m : M A) : Prop :=
  forall s, disk (snd (m s)) = disk s.


(** ** Sample inputs *)

(** A world where every picture request succeeds. *)
Definition sample_world : World :=
  {| repr := fun _ => "[]";
     requests_get := fun _ => Ok (mkResponse "JFIF" (PStr "image/jpeg"));
     picture_write := fun p => Ok (pic_data p);
     b64encode := fun s => "b64:" +:+ s |}.

(** A world where every picture request fails. *)
Definition offline_world : World :=
  {| repr := fun _ => "[]";
     requests_get := fun _ => Raise (OtherException "ConnectionError");
     picture_write := fun p => Ok (pic_data p);
     b64encode := fun s => "b64:" +:+ s |}.

Definition sample_image (url : string) (size : Z) : pyval :=
  PDict [("url", PStr url); ("width", PInt size); ("height", PInt size)].

Definition sample_track (id title : string) (number : Z) : pyval :=
  PDict [("id", PStr id);
         ("name", PStr title);
         ("track_number", PInt number);
         ("artists", PList [PDict [("name", PStr "Artist")]]);
         ("uri", PStr ("spotify:track:" +:+ id))].

(** The album of the example scenario: "Title" (2020) by "Artist", with
    tracks a1 and a2. *)
Definition sample_album (items : list pyval) : pyval :=
  PDict [("name", PStr "Title");
         ("release_date", PStr "2020-05-01");
         ("artists", PList [PDict [("name", PStr "Artist")]]);
         ("images", PList [sample_image "https://i/640" 640;
                           sample_image "https://i/300" 300;
                           sample_image "https://i/64" 64]);
         ("tracks", PDict [("items", PList items)])].

Definition sample_album_candidate : pyval :=
  PDict [("album", sample_album [sample_track "a1" "One" 1;
                                 sample_track "a2" "Two" 2])].

Definition sample_document : pyval :=
  PDict [("playlists", PList []); ("albums", PList [sample_album_candidate])].

(** The record of track a1, as resolved from the sample document. *)
Definition sample_info : SpotifyInfo :=
  {| title := PStr "One";
     artist := PList [PStr "Artist"];
     album := PStr "Title";
     tracknumber := PStr "1";
     image := sample_image "https://i/300" 300;
     year := PStr "2020";
     spotify_id := PStr "a1" |}.

(** The tags of a file that oggify has just written. *)
Definition sample_tags : vcomment := [("SPOTIFY_ID", PStr "a1")].

(** The same tags once reconciled with [sample_info]. *)
Definition sample_tags_done : vcomment :=
  [("SPOTIFY_ID", PStr "a1"); ("title", PStr "One");
   ("artist", PStr "Artist"); ("album", PStr "Title");
   ("tracknumber", PStr "1");
   ("metadata_block_picture", PStr "b64:JFIF"); ("year", PStr "2020")].

Definition sample_events : list event :=
  [Log INFO (MsgSetting "title" PNone [PStr "One"]);
   Log INFO (MsgSetting "artist" PNone [PStr "Artist"]);
   Log INFO (MsgSetting "album" PNone [PStr "Title"]);
   Log INFO (MsgSetting "tracknumber" PNone [PStr "1"]);
   Log INFO (MsgFetching (PStr "https://i/300") (PInt 300) (PInt 300));
   HttpGet (PStr "https://i/300");
   Log INFO (MsgSetting "year" PNone [PStr "2020"])].

(** Tags with a cover picture and a comment of the user's. *)
Definition tagged_with_cover : vcomment :=
  [("SPOTIFY_ID", PStr "a1"); ("COMMENT", PStr "live");
   ("METADATA_BLOCK_PICTURE", PStr "b64:old")].

(** Tags with a comment of the user's, before and after reconciliation
    with [sample_info]. *)
Definition commented_tags : vcomment :=
  [("SPOTIFY_ID", PStr "a1"); ("Comment", PStr "live")].

Definition commented_tags_done : vcomment :=
  [("SPOTIFY_ID", PStr "a1"); ("Comment", PStr "live");
   ("title", PStr "One"); ("artist", PStr "Artist");
   ("album", PStr "Title"); ("tracknumber", PStr "1");
   ("metadata_block_picture", PStr "b64:JFIF"); ("year", PStr "2020")].

(** A track together with its album, as the API returns it and as the
    index stores the tracks of an album. *)
Definition dict_as_entry (track alb : pyval) : pyval :=
  match track with
  | PDict d => PDict (dict_set "album" alb d)
  | _ => track
  end.

(** An API that knows track a1 under its identifier and answers "not
    found" to any other path. *)
Definition sample_api : SpotifyAPI :=
  fun path _ =>
    if String.eqb path "tracks/a1"
    then Ok (dict_as_entry (sample_track "a1" "One" 1)
               (sample_album [sample_track "a1" "One" 1]))
    else Raise (OtherException "HTTP Error 404: Not Found").

(** A track of an album that carries no identifier. *)
Definition anonymous_track : pyval :=
  PDict [("name", PStr "Hidden");
         ("track_number", PInt 2);
         ("artists", PList [PDict [("name", PStr "Artist")]])].

Definition document_with_anonymous_track : pyval :=
  PDict [("albums",
           PList [PDict [("album",
                           sample_album [sample_track "a1" "One" 1;
                                         anonymous_track])]])].




(** Two files written by oggify. *)
Definition sample_disk : gmap string (list (string * string)) :=
  <["a.ogg" := [("SPOTIFY_ID", "a1")]]>
    (<["b.ogg" := [("SPOTIFY_ID", "a2")]]> ∅).

(** What the run of [main] on the two sample files logs and requests
    before the picture request fails. *)
Definition events_before_failure : list event :=
  [Log INFO (MsgSetting "title" PNone [PStr "One"]);
   Log INFO (MsgSetting "artist" PNone [PStr "Artist"]);
   Log INFO (MsgSetting "album" PNone [PStr "Title"]);
   Log INFO (MsgSetting "tracknumber" PNone [PStr "1"]);
   Log INFO (MsgFetching (PStr "https://i/300") (PInt 300) (PInt 300));
   HttpGet (PStr "https://i/300")].

(** ** The cover image in the words of the specification

    "The second-smallest of the available image variants if more than one
    exists, else the only one available, else absent."  The size of a
    variant is its width times its height. *)

Definition image_area (img : pyval) : Z :=
  match getitem img "width", getitem img "height" with
  | Ok (PInt width), Ok (PInt height) => width * height
  | _, _ => 0
  end.

Fixpoint insert_by_area (img : pyval) (sorted : list pyval) : list pyval :=
  match sorted with
  | [] => [img]
  | x :: rest =>
      if (image_area img <=? image_area x)%Z then img :: sorted
      else x :: insert_by_area img rest
  end.

Definition sort_by_area (images : list pyval) : list pyval :=
  fold_right insert_by_area [] images.

Definition spec_cover_image (images : list pyval) : pyval :=
  match sort_by_area images with
  | [] => PNone
  | [only] => only
  | _ :: second :: _ => second
  end.

(** The image the code keeps from a list of variants. *)
Definition listed_cover_image (images : list pyval) : pyval :=
  match images with
  | [] => PNone
  | [only] => only
  | _ :: second :: _ => second
  end.

(** An entry whose album comes in two sizes, largest first, as the API
    lists them. *)
Definition two_size_entry : pyval :=
  PDict [("id", PStr "a1");
         ("name", PStr "One");
         ("track_number", PInt 1);
         ("artists", PList [PDict [("name", PStr "Artist")]]);
         ("album",
           PDict [("name", PStr "Title");
                  ("release_date", PStr "2020-05-01");
                  ("images", PList [sample_image "https://i/640" 640;
                                    sample_image "https://i/300" 300])])].

(** ** Notions for the export *)

(** [p['owner']['id']]. *)
Definition owner_id (p : pyval) : result pyval :=
  (own <-? getitem p "owner"; getitem own "id")%res.

Definition is_track_uri (s : string) : bool := String.prefix track_prefix s.

(** Every song of the folder is a track URI, and there is at least one. *)
Definition folder_ok (folder : Folder) : Prop :=
  songs folder <> [] /\ Forall (fun s => is_track_uri s = true) (songs folder).

(** [generate_oggify.py --albums --owner me]. *)
Definition albums_of_me : Args :=
  {| playlists := false;
     albums := true;
     filter_arg := None;
     owner := Some "me";
     str_lower := lower |}.

(** [generate_oggify.py --playlists --owner me]. *)
Definition playlists_of_me : Args :=
  {| playlists := true;
     albums := false;
     filter_arg := None;
     owner := Some "me";
     str_lower := lower |}.

Definition sample_playlist (nm owner_name : string) : pyval :=
  PDict [("id", PStr "p1");
         ("name", PStr nm);
         ("owner", PDict [("id", PStr owner_name)]);
         ("tracks",
           PList [PDict [("track", sample_track "a1" "One" 1)];
                  PDict [("track",
                           PDict [("name", PStr "Local file");
                                  ("uri", PStr "spotify:local:x")])]])].

Definition sample_album_folder : Folder :=
  {| name := PStr "Artist - Title (2020)";
     songs := ["spotify:track:a1"; "spotify:track:a2"] |}.

(** ** Notions for the further properties *)

(** A computation that writes no file and only emits events that
    satisfy [P]. *)
Definition emits {A} (P : event -> Prop) (m : M A) : Prop :=
  forall s, exists evs,
    snd (m s) = mkState (disk s) (trace s ++ evs) /\ Forall P evs.

(** A computation whose result does not depend on the files or on what
    happened before. *)
Definition stateless {A} (m : M A) : Prop :=
  forall s1 s2, fst (m s1) = fst (m s2).

Definition not_save (ev : event) : Prop :=
  match ev with Save _ _ => False | _ => True end.

Definition is_log (ev : event) : Prop :=
  match ev with Log _ _ => True | _ => False end.

Definition is_http (ev : event) : bool :=
  match ev with HttpGet _ => true | _ => false end.

Definition any_event (ev : event) : Prop := True.

(** The key under which an entry of the index is stored: the hash of its
    own [id]. *)
Definition own_key (value : pyval) : result pykey :=
  (id <-? dict_get value "id"; to_key id)%res.

(** The tracks of an album, as the album pass goes through them. *)
Definition album_tracks (alb : pyval) : result (list pyval) :=
  (tracks <-? getitem alb "tracks";
   items <-? getitem tracks "items";
   py_iter items)%res.

(** The entries of the track list of a candidate, as line 104 reads
    them. *)
Definition candidate_tracks (is_album : bool) (p : pyval)
  : result (list pyval) :=
  (tracks <-? (if is_album
               then (alb <-? getitem p "album";
                     trs <-? getitem alb "tracks";
                     getitem trs "items")
               else getitem p "tracks");
   py_iter tracks)%res.

(** The arguments with other export flags. *)
Definition with_flags (args : Args) (pl al : bool) : Args :=
  {| playlists := pl;
     albums := al;
     filter_arg := filter_arg args;
     owner := owner args;
     str_lower := str_lower args |}.

(** The comment of a file as [OggVorbis] hands it over: every value a
    text. *)
Definition opened (txt : list (string * string)) : vcomment :=
  map (fun kv => (fst kv, PStr (snd kv))) txt.

(** What [save] writes. *)
Definition saved (ogg : vcomment) : list (string * string) :=
  map (fun kv => (fst kv, text_of (snd kv))) ogg.

(** The index built from the sample document, and a tagger that works
    from it alone. *)
Definition sample_cache : gmap pykey pyval :=
  match build_index sample_document with
  | Ok track_cache => track_cache
  | Raise _ => ∅
  end.

Definition sample_tagger : Tagger := mkTagger sample_cache None.

(** Lines 111-120: the script stops with status 1 when there is nothing to
    export, and when the output file exists and [--force] is not given.
    [bash_exists] is [os.path.isfile(args.bash)], [force] is
    [args.force]. *)
Definition check_export (folders : list Folder) (bash_exists force : bool)
  : result unit :=
  if (List.length folders =? 0)%nat then Raise (SystemExit 1)
  else if bash_exists && negb force then Raise (SystemExit 1)
  else Ok tt.

(** Lines 75-120: the folders the script goes on to write out. *)
Definition folders_to_write (w : World) (args : Args) (jsonobj : pyval)
    (bash_exists force : bool) : result (list Folder) :=
  (folders <-? export_folders w args jsonobj;
   _ <-? check_export folders bash_exists force;
   Ok folders)%res.

(** An export with a playlist and an album. *)
Definition mixed_document : pyval :=
  PDict [("playlists", PList [sample_playlist "Mine" "me"]);
         ("albums", PList [sample_album_candidate])].

Definition sample_playlist_folder : Folder :=
  {| name := PStr "Mine"; songs := ["spotify:track:a1"] |}.

(** [generate_oggify.py --playlists --albums titl]. *)
Definition everything_like_titl : Args :=
  {| playlists := true;
     albums := true;
     filter_arg := Some "TITL";
     owner := None;
     str_lower := lower |}.

(** ** [sanitize_filename] (lines 57-68)

    The function goes through its argument character by character, so a
    [str] is here the list of its characters, each one a code point.  For
    the characters of ASCII, [str.isalpha] and [str.isdigit] are the
    letters and the digits; beyond ASCII they follow the Unicode tables,
    which are parameters. *)

Definition pystr : Type := list N.

Record Unicode : Type := mkUnicode {
  uni_isalpha : N -> bool;
  uni_isdigit : N -> bool
}.

Definition ascii_letter (c : N) : bool :=
  ((65 <=? c) && (c <=? 90) || (97 <=? c) && (c <=? 122))%N.

Definition ascii_digit (c : N) : bool := ((48 <=? c) && (c <=? 57))%N.

(** [str.isalpha(c)] and [str.isdigit(c)] for one character. *)
Definition isalpha (u : Unicode) (c : N) : bool :=
  if (c <? 128)%N then ascii_letter c else uni_isalpha u c.

Definition isdigit (u : Unicode) (c : N) : bool :=
  if (c <? 128)%N then ascii_digit c else uni_isdigit u c.

(** The characters of [validchars]: hyphen, underscore, full stop, round
    brackets, ampersand, single and double quote, square brackets, comma,
    exclamation mark, plus sign and space. *)
Definition validchars : pystr :=
  [45; 95; 46; 40; 41; 38; 39; 34; 91; 93; 44; 33; 43; 32]%N.

(** The literal the loop compares a character with: the three characters
    U+00E2, U+20AC, U+201C of the source file. *)
Definition dash_literal : pystr := [226; 8364; 8220]%N.

Definition hyphen : N := 45%N.
Definition underscore : N := 95%N.
Definition single_quote : N := 39%N.
Definition double_quote : N := 34%N.

Fixpoint pystr_eqb (a b : pystr) : bool :=
  match a, b with
  | [], [] => true
  | x :: a', y :: b' => N.eqb x y && pystr_eqb a' b'
  | _, _ => false
  end.

(** [c in s] for one character [c]. *)
Definition char_in (c : N) (s : pystr) : bool := existsb (N.eqb c) s.

(** The character is kept as it is (line 61). *)
Definition kept (u : Unicode) (c : N) : bool :=
  isalpha u c || isdigit u c || char_in c validchars.

(** What one turn of the loop appends to [out]. *)
Definition sanitize_char (u : Unicode) (c : N) : pystr :=
  if kept u c then [c]
  else if pystr_eqb [c] dash_literal then [hyphen]
  else [underscore].

(** Lines 59-67: [out] at the end of the loop. *)
Definition sanitize_chars (u : Unicode) (fn : pystr) : pystr :=
  flat_map (sanitize_char u) fn.

(** The characters [shlex.quote] leaves bare: ASCII letters and digits,
    underscore, at sign, percent, plus, equals, colon, comma, full stop,
    slash and hyphen. *)
Definition shell_safe (c : N) : bool :=
  ascii_letter c || ascii_digit c
  || char_in c [95; 64; 37; 43; 61; 58; 44; 46; 47; 45]%N.

(** [shlex.quote(s)]. *)
Definition quote (s : pystr) : pystr :=
  match s with
  | [] => [single_quote; single_quote]
  | _ =>
      if forallb shell_safe s then s
      else [single_quote]
           ++ flat_map (fun c =>
                          if N.eqb c single_quote
                          then [single_quote; double_quote; single_quote;
                                double_quote; single_quote]
                          else [c]) s
           ++ [single_quote]
  end.

Definition sanitize_filename (u : Unicode) (fn : pystr) : pystr :=
  quote (sanitize_chars u fn).

(** Tables that know no letter or digit beyond ASCII. *)
Definition ascii_only : Unicode :=
  {| uni_isalpha := fun _ => false; uni_isdigit := fun _ => false |}.

(** The name AC/DC, a space, an en dash (U+2013), a space, Live. *)
Definition sample_name : pystr :=
  [65; 67; 47; 68; 67; 32; 8211; 32; 76; 105; 118; 101]%N.

(** The folder of a candidate, filters apart (lines 86-90 and
    101-106). *)
Definition candidate_folder (w : World) (p : pyval) : result Folder :=
  (is_album <-? py_contains "album" p;
   folder_name <-? (if is_album then album_folder_name w p
                    else getitem p "name");
   collect is_album folder_name p)%res.

Definition has_songs (folder : Folder) : bool :=
  match songs folder with
  | [] => false
  | _ => true
  end.

(** [generate_oggify.py --playlists --albums], no filter. *)
Definition everything : Args :=
  {| playlists := true;
     albums := true;
     filter_arg := None;
     owner := None;
     str_lower := lower |}.
(** * Properties *)

(** ** Vorbis comments: reading after writing *)

Section VComment.
Implicit Types (t : vcomment) (k key : string) (vs : list pyval).

Lemma key_is_refl key v : key_is key (key, v) = true.
Proof. unfold key_is; simpl. apply String.eqb_refl. Qed.

Lemma key_is_other k key v :
  lower k <> lower key -> key_is key (k, v) = false.
Proof.
  intros Hne. unfold key_is; simpl.
  destruct (String.eqb_spec (lower k) (lower key)); congruence.
Qed.

Lemma key_is_exclusive k key kv :
  lower k <> lower key -> key_is key kv = true -> key_is k kv = false.
Proof.
  unfold key_is. intros Hne H.
  apply String.eqb_eq in H.
  destruct (String.eqb_spec (lower (fst kv)) (lower k)); congruence.
Qed.

Lemma tag_values_app key t1 t2 :
  tag_values key (t1 ++ t2) = tag_values key t1 ++ tag_values key t2.
Proof. unfold tag_values. now rewrite List.filter_app, List.map_app. Qed.

Lemma tag_values_removed key t :
  tag_values key (List.filter (fun kv => negb (key_is key kv)) t) = [].
Proof.
  unfold tag_values. induction t as [|kv t IH]; simpl; [reflexivity|].
  destruct (key_is key kv) eqn:E; simpl; [exact IH|].
  now rewrite E.
Qed.

Lemma tag_values_kept k key t :
  lower k <> lower key ->
  tag_values key (List.filter (fun kv => negb (key_is k kv)) t)
  = tag_values key t.
Proof.
  intros Hne. unfold tag_values. induction t as [|kv t IH]; simpl; [reflexivity|].
  destruct (key_is key kv) eqn:E.
  - rewrite (key_is_exclusive k key kv Hne E); simpl.
    rewrite E; simpl. now f_equal.
  - destruct (key_is k kv); simpl; [exact IH|].
    now rewrite E.
Qed.

Lemma tag_values_new key vs :
  tag_values key (map (fun v => (key, v)) vs) = vs.
Proof.
  unfold tag_values. induction vs as [|v vs IH]; simpl; [reflexivity|].
  rewrite key_is_refl; simpl. now f_equal.
Qed.

Lemma tag_values_new_other k key vs :
  lower k <> lower key ->
  tag_values key (map (fun v => (k, v)) vs) = [].
Proof.
  intros Hne. unfold tag_values. induction vs as [|v vs IH]; simpl; [reflexivity|].
  now rewrite (key_is_other k key v Hne).
Qed.

(** [ogg[key] = vs] then [ogg.get(key, [])] gives [vs]. *)
Lemma tags_get_set_same key vs t : tags_get key (tags_set key vs t) = vs.
Proof.
  unfold tags_get, tags_set.
  now rewrite tag_values_app, tag_values_removed, tag_values_new.
Qed.

(** Writing one key leaves the values of the others as they were. *)
Lemma tags_get_set_other k key vs t :
  lower k <> lower key -> tags_get key (tags_set k vs t) = tags_get key t.
Proof.
  intros Hne. unfold tags_get, tags_set.
  rewrite tag_values_app, (tag_values_kept k key t Hne),
    (tag_values_new_other k key vs Hne).
  apply app_nil_r.
Qed.

Lemma tags_contains_values key t :
  tags_contains key t = true <-> tag_values key t <> [].
Proof.
  unfold tags_contains, tag_values.
  induction t as [|kv t IH]; simpl; [split; congruence|].
  destruct (key_is key kv); simpl; [split; congruence|exact IH].
Qed.

Lemma tags_get_opt_truthy key t :
  truthy (tags_get_opt key t) = true <-> tag_values key t <> [].
Proof.
  unfold tags_get_opt. destruct (tag_values key t); simpl; split; congruence.
Qed.
End VComment.

(** ** Equality of values is reflexive *)

Lemma py_eqb_refl v : py_eqb v v = true.
Proof.
  induction v as [| b | z | s | l IH | d IH] using pyval_ind; simpl.
  - reflexivity.
  - apply Bool.eqb_reflx.
  - apply Z.eqb_refl.
  - apply String.eqb_refl.
  - induction IH as [|x l Hx _ IHl]; [reflexivity|].
    now rewrite Hx, IHl.
  - rewrite Nat.eqb_refl; simpl.
    assert (forall kv, In kv d -> In kv d) as Hsub by auto.
    revert Hsub. generalize d at 2 3 as d2. intros d2 Hsub.
    induction IH as [|[k x] d Hx _ IHd]; [reflexivity|].
    simpl in Hx. apply andb_true_intro. split.
    + apply existsb_exists. exists (k, x). split; [apply Hsub; now left|].
      simpl. now rewrite String.eqb_refl, Hx.
    + apply IHd. intros kv Hin. apply Hsub. now right.
Qed.

Lemma list_eqb_refl l : list_eqb l l = true.
Proof.
  induction l as [|x l IH]; simpl; [reflexivity|].
  now rewrite py_eqb_refl, IH.
Qed.

(** ** The reconciliation loop *)

Ltac run_M H :=
  unfold bind, lift, ret, log, emit in H; simpl in H;
  repeat match type of H with
         | context [match ?r with Ok _ => _ | Raise _ => _ end] =>
             destruct r; simpl in H; try discriminate H
         end.

Section Reconcile.
Variable w : World.
Variable info : SpotifyInfo.
Implicit Types (t : vcomment) (c : bool) (s : state) (var k : string).

Lemma fetch_picture_inv img t s t' s' :
  fetch_picture w img t s = (Ok t', s') ->
  exists v, t' = tags_set cover_key [v] t.
Proof.
  intros H. unfold fetch_picture in H. run_M H.
  inversion H. eauto.
Qed.

Lemma tags_get_opt_same key t t' :
  tags_get key t = tags_get key t' -> tags_get_opt key t = tags_get_opt key t'.
Proof. unfold tags_get, tags_get_opt. now intros ->. Qed.

(** A turn only writes the tag it depends on. *)
Lemma reconcile_var_frame t c var s t' c' s' k :
  reconcile_var w info (t, c) var s = (Ok (t', c'), s') ->
  lower (dep_key var) <> lower k ->
  tags_get k t' = tags_get k t.
Proof.
  unfold reconcile_var, dep_key. intros H Hne.
  destruct (is_none (info_get info var)); [now inversion H|].
  destruct (String.eqb var "image").
  - destruct (truthy (tags_get_opt cover_key t)); simpl in H; [now inversion H|].
    unfold bind in H.
    destruct (fetch_picture w (image info) t s) as [[ogg'|e] s1] eqn:E;
      [|discriminate].
    apply fetch_picture_inv in E as [v ->].
    inversion H; subst. now apply tags_get_set_other.
  - destruct (list_eqb _ _); simpl in H; [now inversion H|].
    run_M H. inversion H; subst. now apply tags_get_set_other.
Qed.

(** Whether a turn has work to do depends on that tag alone. *)
Lemma settled_same_tag var t t' :
  tags_get (dep_key var) t = tags_get (dep_key var) t' ->
  settled info var t = settled info var t'.
Proof.
  unfold settled, dep_key. intros H.
  destruct (String.eqb var "image").
  - now rewrite (tags_get_opt_same _ _ _ H).
  - now rewrite H.
Qed.

(** After its turn, a variable is settled. *)
Lemma reconcile_var_settles t c var s t' c' s' :
  reconcile_var w info (t, c) var s = (Ok (t', c'), s') ->
  settled info var t' = true.
Proof.
  unfold reconcile_var, settled. intros H.
  destruct (is_none (info_get info var)); [reflexivity|]. simpl.
  destruct (String.eqb var "image").
  - destruct (truthy (tags_get_opt cover_key t)) eqn:Ht; simpl in H.
    + inversion H; subst. exact Ht.
    + unfold bind in H.
      destruct (fetch_picture w (image info) t s) as [[ogg'|e] s1] eqn:E;
        [|discriminate].
      apply fetch_picture_inv in E as [v ->].
      inversion H; subst.
      apply tags_get_opt_truthy.
      change (tags_get cover_key (tags_set cover_key [v] t) <> []).
      now rewrite tags_get_set_same.
  - destruct (list_eqb _ _) eqn:Heq; simpl in H.
    + inversion H; subst. exact Heq.
    + run_M H. inversion H; subst.
      rewrite tags_get_set_same.
      apply list_eqb_refl.
Qed.

(** A settled variable costs nothing: no write, no event, no change of
    the flag. *)
Lemma reconcile_var_settled t c var s :
  settled info var t = true ->
  reconcile_var w info (t, c) var s = (Ok (t, c), s).
Proof.
  unfold reconcile_var, settled. intros H.
  destruct (is_none (info_get info var)); [reflexivity|]. simpl in H.
  destruct (String.eqb var "image"); rewrite H; reflexivity.
Qed.

Lemma foldM_cons {A B} (f : A -> B -> M A) b l a s :
  foldM f (b :: l) a s =
  match f a b s with
  | (Ok a', s') => foldM f l a' s'
  | (Raise e, s') => (Raise e, s')
  end.
Proof. reflexivity. Qed.

(** The loop only writes the tags its variables depend on. *)
Lemma reconcile_loop_frame l : forall t c s t' c' s' k,
  foldM (reconcile_var w info) l (t, c) s = (Ok (t', c'), s') ->
  Forall (fun var => lower (dep_key var) <> lower k) l ->
  tags_get k t' = tags_get k t.
Proof.
  induction l as [|var l IH]; intros t c s t' c' s' k H Hl.
  - now inversion H.
  - rewrite foldM_cons in H.
    destruct (reconcile_var w info (t, c) var s) as [[[t1 c1]|e] s1] eqn:E;
      [|discriminate].
    inversion Hl as [|? ? Hvar Hrest]; subst.
    rewrite (IH _ _ _ _ _ _ _ H Hrest).
    exact (reconcile_var_frame _ _ _ _ _ _ _ _ E Hvar).
Qed.

Lemma distinct_hd a l :
  distinct (a :: l) = true -> Forall (fun b => b <> a) l /\ distinct l = true.
Proof.
  simpl. intros H. apply andb_prop in H as [Ha Hl]. split; [|exact Hl].
  apply negb_true_iff in Ha.
  apply List.Forall_forall. intros b Hb ->.
  assert (existsb (String.eqb a) l = true) as Hex.
  { apply existsb_exists. exists a. split; [exact Hb|apply String.eqb_refl]. }
  congruence.
Qed.

(** After the loop every variable it went through is settled. *)
Lemma reconcile_loop_settles l : forall t c s t' c' s',
  distinct (map (fun var => lower (dep_key var)) l) = true ->
  foldM (reconcile_var w info) l (t, c) s = (Ok (t', c'), s') ->
  Forall (fun var => settled info var t' = true) l.
Proof.
  induction l as [|var l IH]; intros t c s t' c' s' Hd H; [constructor|].
  rewrite foldM_cons in H.
  destruct (reconcile_var w info (t, c) var s) as [[[t1 c1]|e] s1] eqn:E;
    [|discriminate].
  change (map _ (var :: l)) with
    (lower (dep_key var) :: map (fun var => lower (dep_key var)) l) in Hd.
  apply distinct_hd in Hd as [Hne Hd].
  constructor; [|exact (IH _ _ _ _ _ _ Hd H)].
  rewrite <- (reconcile_var_settles _ _ _ _ _ _ _ E).
  apply settled_same_tag.
  apply (reconcile_loop_frame l _ _ _ _ _ _ _ H).
  rewrite List.Forall_map in Hne. exact Hne.
Qed.

(** On tags where every variable is settled the loop does nothing. *)
Lemma reconcile_loop_settled l : forall t c s,
  Forall (fun var => settled info var t = true) l ->
  foldM (reconcile_var w info) l (t, c) s = (Ok (t, c), s).
Proof.
  induction l as [|var l IH]; intros t c s Hl; [reflexivity|].
  inversion Hl as [|? ? Hvar Hrest]; subst.
  rewrite foldM_cons, (reconcile_var_settled _ _ _ _ Hvar).
  now apply IH.
Qed.

Lemma tag_values_same_lower k key t :
  lower k = lower key -> tag_values k t = tag_values key t.
Proof.
  intros H. unfold tag_values. f_equal.
  apply List.filter_ext. intros kv. unfold key_is. now rewrite H.
Qed.

(** A turn leaves alone every tag of the file that is not named after the
    variable, when the variable is set. *)
Lemma reconcile_var_keeps t c var s t' c' s' k :
  reconcile_var w info (t, c) var s = (Ok (t', c'), s') ->
  tags_contains k t = true ->
  (is_none (info_get info var) = false -> lower var <> lower k) ->
  tags_get k t' = tags_get k t.
Proof.
  intros H Hk Hne.
  destruct (is_none (info_get info var)) eqn:Hn.
  - unfold reconcile_var in H. rewrite Hn in H. now inversion H.
  - specialize (Hne eq_refl).
    destruct (String.eqb var "image") eqn:Hi.
    + destruct (truthy (tags_get_opt cover_key t)) eqn:Ht.
      * unfold reconcile_var in H. rewrite Hn, Hi, Ht in H. now inversion H.
      * apply (reconcile_var_frame _ _ _ _ _ _ _ _ H).
        unfold dep_key. rewrite Hi. intros Heq.
        apply tags_contains_values in Hk.
        rewrite <- (tag_values_same_lower _ _ t Heq) in Hk.
        apply tags_get_opt_truthy in Hk. congruence.
    + apply (reconcile_var_frame _ _ _ _ _ _ _ _ H).
      unfold dep_key. now rewrite Hi.
Qed.

Lemma reconcile_loop_keeps l : forall t c s t' c' s' k,
  foldM (reconcile_var w info) l (t, c) s = (Ok (t', c'), s') ->
  tags_contains k t = true ->
  Forall (fun var => is_none (info_get info var) = false ->
                     lower var <> lower k) l ->
  tags_get k t' = tags_get k t.
Proof.
  induction l as [|var l IH]; intros t c s t' c' s' k H Hk Hl.
  - now inversion H.
  - rewrite foldM_cons in H.
    destruct (reconcile_var w info (t, c) var s) as [[[t1 c1]|e] s1] eqn:E;
      [|discriminate].
    inversion Hl as [|? ? Hvar Hrest]; subst.
    pose proof (reconcile_var_keeps _ _ _ _ _ _ _ _ E Hk Hvar) as Hstep.
    rewrite <- Hstep. apply (IH _ _ _ _ _ _ _ H); [|exact Hrest].
    apply tags_contains_values. unfold tags_get in Hstep. rewrite Hstep.
    now apply tags_contains_values.
Qed.

Lemma state_eta s : s = mkState (disk s) (trace s ++ []).
Proof. destruct s; simpl. now rewrite app_nil_r. Qed.

(** With a cover picture in the file, a turn of the loop ends normally,
    asks for no picture and leaves the cover alone. *)
Lemma reconcile_var_with_cover t c var s :
  truthy (tags_get_opt cover_key t) = true ->
  String.eqb var "image" = true \/ lower var <> lower cover_key ->
  exists t' c' evs,
    reconcile_var w info (t, c) var s
    = (Ok (t', c'), mkState (disk s) (trace s ++ evs)) /\
    Forall not_http evs /\
    tags_get cover_key t' = tags_get cover_key t.
Proof.
  intros Ht Hvar. unfold reconcile_var.
  destruct (is_none (info_get info var)).
  { exists t, c, []. repeat split; [apply f_equal, state_eta|constructor]. }
  destruct (String.eqb var "image") eqn:Hi.
  { rewrite Ht. simpl.
    exists t, c, []. repeat split; [apply f_equal, state_eta|constructor]. }
  destruct Hvar as [Hvar|Hvar]; [discriminate|].
  destruct (list_eqb _ _); simpl.
  { exists t, c, []. repeat split; [apply f_equal, state_eta|constructor]. }
  eexists _, true, [_]. repeat split.
  - repeat constructor.
  - now apply tags_get_set_other.
Qed.

Lemma reconcile_loop_with_cover l : forall t c s,
  truthy (tags_get_opt cover_key t) = true ->
  Forall (fun var => String.eqb var "image" = true
                     \/ lower var <> lower cover_key) l ->
  exists t' c' evs,
    foldM (reconcile_var w info) l (t, c) s
    = (Ok (t', c'), mkState (disk s) (trace s ++ evs)) /\
    Forall not_http evs /\
    tags_get cover_key t' = tags_get cover_key t.
Proof.
  induction l as [|var l IH]; intros t c s Ht Hl.
  - exists t, c, []. repeat split; [apply f_equal, state_eta|constructor].
  - inversion Hl as [|? ? Hvar Hrest]; subst.
    destruct (reconcile_var_with_cover t c var s Ht Hvar)
      as (t1 & c1 & evs1 & E & Hevs1 & Hcov1).
    assert (truthy (tags_get_opt cover_key t1) = true) as Ht1.
    { rewrite (tags_get_opt_same _ _ _ Hcov1). exact Ht. }
    destruct (IH t1 c1 (mkState (disk s) (trace s ++ evs1)) Ht1 Hrest)
      as (t' & c' & evs2 & E2 & Hevs2 & Hcov2).
    exists t', c', (evs1 ++ evs2). repeat split.
    + rewrite foldM_cons, E, E2. simpl. now rewrite app_assoc.
    + apply Forall_app. now split.
    + now rewrite Hcov2.
Qed.
End Reconcile.

(** ** The example scenario of the specification *)

Example sample_track_is_resolved :
  exists track_cache,
    build_index sample_document = Ok track_cache /\
    size track_cache = 2 /\
    run (get_spotify_info sample_world (mkTagger track_cache None) (PStr "a1")) ∅
    = (Ok (Some sample_info), mkState ∅ []).
Proof. eexists. repeat split; vm_compute; reflexivity. Qed.

Example sample_tags_are_reconciled :
  run (reconcile sample_world sample_info sample_tags) ∅
  = (Ok (sample_tags_done, true), mkState ∅ sample_events).
Proof. vm_compute. reflexivity. Qed.

Example track_number_as_text :
  py_str (repr sample_world) (PInt 12) = "12"
  /\ py_str (repr sample_world) (PInt 0) = "0"
  /\ py_str (repr sample_world) (PInt (-3)) = "-3".
Proof. repeat split. Qed.

(** ** Reconciliation: idempotence, frame, existing cover *)

Lemma vars_dep_keys_distinct :
  distinct (map (fun var => lower (dep_key var)) vars) = true.
Proof. reflexivity. Qed.

Lemma vars_not_cover :
  Forall (fun var => String.eqb var "image" = true
                     \/ lower var <> lower cover_key) vars.
Proof.
  unfold vars.
  repeat (apply List.Forall_cons; [solve [now left | right; discriminate]|]).
  apply List.Forall_nil.
Qed.

(** C2. Reconciliation is idempotent: when [reconcile] of a record [info]
    on tags [t] returns the tags [t'], [reconcile] of [info] on [t']
    returns [t'] itself with [changed = False], and has no effect at all
    (no write, no request, no log record). *)
Theorem reconcile_idempotent w info t t' c s s' :
  reconcile w info t s = (Ok (t', c), s') ->
  forall s2, reconcile w info t' s2 = (Ok (t', false), s2).
Proof.
  intros H s2. unfold reconcile in *.
  apply reconcile_loop_settled.
  exact (reconcile_loop_settles w info vars _ _ _ _ _ _
           vars_dep_keys_distinct H).
Qed.

Lemma reconcile_idempotent_witness :
  reconcile sample_world sample_info sample_tags_done (mkState ∅ [])
  = (Ok (sample_tags_done, false), mkState ∅ []).
Proof.
  apply (reconcile_idempotent sample_world sample_info sample_tags
           sample_tags_done true (mkState ∅ []) (mkState ∅ sample_events)).
  vm_compute. reflexivity.
Defined.

(** C9. Frame property: in the tags returned by [reconcile], every tag of
    the file whose name is not the name of a field that is set in the
    record has the values it had (names are compared as Vorbis comments
    compare them, without regard to case). *)
Theorem reconcile_frame w info t s t' c s' k :
  reconcile w info t s = (Ok (t', c), s') ->
  tags_contains k t = true ->
  (forall var, In var vars ->
               is_none (info_get info var) = false -> lower var <> lower k) ->
  tags_get k t' = tags_get k t.
Proof.
  intros H Hk Hne. unfold reconcile in H.
  apply (reconcile_loop_keeps w info vars _ _ _ _ _ _ _ H Hk).
  apply List.Forall_forall. intros var Hin. now apply Hne.
Qed.

Lemma reconcile_frame_witness :
  tags_get "comment" commented_tags_done = tags_get "comment" commented_tags.
Proof.
  apply (reconcile_frame sample_world sample_info commented_tags
           (mkState ∅ []) commented_tags_done true
           (mkState ∅ sample_events) "comment").
  - vm_compute. reflexivity.
  - reflexivity.
  - intros var Hin _. simpl in Hin.
    repeat (destruct Hin as [<-|Hin]; [discriminate|]). destruct Hin.
Defined.

(** C4. When the file has a cover picture (a non-empty
    [metadata_block_picture] tag), [reconcile] ends normally, requests no
    picture and leaves the cover tag as it is, whatever the image of the
    record. *)
Theorem existing_cover_is_kept w info t s :
  truthy (tags_get_opt cover_key t) = true ->
  exists t' c evs,
    reconcile w info t s = (Ok (t', c), mkState (disk s) (trace s ++ evs)) /\
    Forall not_http evs /\
    tags_get cover_key t' = tags_get cover_key t.
Proof.
  intros Ht. unfold reconcile.
  exact (reconcile_loop_with_cover w info vars t false s Ht vars_not_cover).
Qed.

Lemma existing_cover_is_kept_witness :
  exists t' c evs,
    reconcile offline_world sample_info tagged_with_cover (mkState ∅ [])
    = (Ok (t', c), mkState ∅ ([] ++ evs)) /\
    Forall not_http evs /\
    tags_get cover_key t' = [PStr "b64:old"].
Proof.
  apply (existing_cover_is_kept offline_world sample_info tagged_with_cover
           (mkState ∅ [])).
  reflexivity.
Defined.

(** ** The track resolver *)

Lemma append_length s1 s2 :
  String.length (s1 +:+ s2) = String.length s1 + String.length s2.
Proof. induction s1 as [|a s1 IH]; simpl; [reflexivity|now rewrite IH]. Qed.

Lemma append_suffix_differs s : s +:+ "aa" <> s.
Proof.
  intros H. apply (f_equal String.length) in H.
  rewrite append_length in H. simpl in H. lia.
Qed.

(** C1. For an identifier that is not in the index, with a remote service
    at hand, the resolver asks the service for [tracks/<identifier>aa]: the
    identifier followed by the two letters "aa", which is not the path of
    the identifier itself. *)
Theorem remote_fetch_path_has_suffix w tg (id : string) api s :
  cache tg !! KStr id = None ->
  spotify tg = Some api ->
  (exists r evs,
     get_spotify_info w tg (PStr id) s
     = (r, mkState (disk s)
             (trace s ++ RemoteGet ("tracks/" +:+ id +:+ "aa") 2 :: evs)))
  /\ "tracks/" +:+ id +:+ "aa" <> "tracks/" +:+ id.
Proof.
  intros Hc Ha. split.
  - unfold get_spotify_info, fetch_entry, bind, lift. simpl.
    rewrite Hc, Ha.
    unfold try_except, remote_get, bind, emit, lift, track_path. simpl.
    destruct (api _ 2) as [entry|e]; simpl.
    + destruct (is_none entry) eqn:Hn.
      * destruct entry; try discriminate. now exists (Ok None), [].
      * exists (match build_info w (PStr id) entry with
                | Ok info => Ok (Some info)
                | Raise e => Raise e
                end), [].
        destruct entry; try discriminate;
          unfold ret; destruct (build_info _ _ _); reflexivity.
    + destruct (is_Exception e).
      * exists (Ok None), [Log ERROR (MsgException e)].
        unfold log, emit, ret, bind. simpl. now rewrite <- app_assoc.
      * now exists (Raise e), [].
  - simpl. intros H. injection H as H. exact (append_suffix_differs id H).
Qed.

Lemma remote_fetch_path_has_suffix_witness :
  (exists r evs,
     get_spotify_info sample_world (mkTagger ∅ (Some sample_api)) (PStr "a1")
       (mkState ∅ [])
     = (r, mkState ∅ ([] ++ RemoteGet "tracks/a1aa" 2 :: evs)))
  /\ "tracks/a1aa" <> "tracks/a1".
Proof.
  apply (remote_fetch_path_has_suffix sample_world
           (mkTagger ∅ (Some sample_api)) "a1" sample_api (mkState ∅ []));
    reflexivity.
Defined.

(** The track that the service knows under its identifier is not found. *)
Example remote_track_not_found :
  run (get_spotify_info sample_world (mkTagger ∅ (Some sample_api)) (PStr "a1")) ∅
  = (Ok None,
     mkState ∅ [RemoteGet "tracks/a1aa" 2;
                Log ERROR (MsgException
                             (OtherException "HTTP Error 404: Not Found"))]).
Proof. reflexivity. Qed.




(** C8, as stated, fails: of two variants listed largest first, the record
    keeps the smallest one, where the second-smallest is the other. *)
Lemma cover_image_is_not_second_smallest :
  (exists info,
     build_info sample_world (PStr "a1") two_size_entry = Ok info /\
     image info = sample_image "https://i/300" 300) /\
  spec_cover_image [sample_image "https://i/640" 640;
                    sample_image "https://i/300" 300]
  = sample_image "https://i/640" 640.
Proof.
  split; [|reflexivity].
  eexists. split; [vm_compute; reflexivity|reflexivity].
Qed.

(** C8, amended. The cover image of a resolved record is the second entry
    of the album's list of image variants, in the order of the list, when
    the list has more than one entry; its only entry when it has one;
    absent when it is empty. *)
Theorem cover_image_is_second_listed w id entry info alb images :
  build_info w id entry = Ok info ->
  getitem entry "album" = Ok alb ->
  getitem alb "images" = Ok (PList images) ->
  image info = listed_cover_image images.
Proof.
  intros H Ha Hi. unfold build_info in H.
  rewrite Ha in H. simpl in H. rewrite Hi in H. simpl in H.
  assert (pick_image (PList images) = Ok (listed_cover_image images)) as Hp.
  { destruct images as [|x [|y rest]]; reflexivity. }
  rewrite Hp in H. simpl in H.
  unfold rbind in H.
  repeat match type of H with
         | context [match ?r with Ok _ => _ | Raise _ => _ end] =>
             destruct r; try discriminate H
         end.
  now inversion H.
Qed.

Lemma cover_image_is_second_listed_witness :
  image sample_info
  = listed_cover_image [sample_image "https://i/640" 640;
                        sample_image "https://i/300" 300;
                        sample_image "https://i/64" 64].
Proof.
  apply (cover_image_is_second_listed sample_world (PStr "a1")
           (dict_as_entry (sample_track "a1" "One" 1)
              (sample_album [sample_track "a1" "One" 1]))
           sample_info (sample_album [sample_track "a1" "One" 1])).
  - vm_compute. reflexivity.
  - reflexivity.
  - reflexivity.
Defined.

(** ** The track index *)

(** The pass over single tracks only stores tracks that have an
    identifier. *)
Lemma track_pass_requires_id jsonobj :
  Forall (fun value => has_field "id" value = true)
         (find_where "track" "id" jsonobj).
Proof.
  apply List.Forall_forall. intros value Hin.
  unfold find_where in Hin. now apply List.filter_In in Hin.
Qed.

(** C3. A track of an album that has no identifier is not skipped: the
    pass over albums stores the track, merged with its album, under the
    key [None]. *)
Theorem anonymous_album_track_is_indexed :
  exists track_cache,
    build_index document_with_anonymous_track = Ok track_cache /\
    track_cache !! KNone
    = Some (dict_as_entry anonymous_track
              (sample_album [sample_track "a1" "One" 1; anonymous_track])).
Proof.
  eexists. split; vm_compute; reflexivity.
Qed.

(** ** The run over the files *)

(** C6. A run over two files without a cover, when the request for the
    cover picture fails: nothing is saved for the first file, but the
    exception leaves [write_tags] and [main], so the run ends there, with
    no error logged, and the second file is never processed. *)
Theorem failed_picture_fetch_ends_the_run :
  run (main offline_world None (Some sample_document) ["a.ogg"; "b.ogg"])
      sample_disk
  = (Raise (OtherException "ConnectionError"),
     mkState sample_disk events_before_failure).
Proof. vm_compute. reflexivity. Qed.

Section KeepsDisk.
Context {A B : Type}.

Lemma keeps_disk_ret (a : A) : keeps_disk (ret a).
Proof. intros s. reflexivity. Qed.

Lemma keeps_disk_lift (r : result A) : keeps_disk (lift r).
Proof. intros s. reflexivity. Qed.

Lemma keeps_disk_bind (m : M A) (k : A -> M B) :
  keeps_disk m -> (forall a, keeps_disk (k a)) -> keeps_disk (bind m k).
Proof.
  intros Hm Hk s. unfold bind. specialize (Hm s).
  destruct (m s) as [[a|e] s1]; simpl in *; [|exact Hm].
  now rewrite (Hk a s1).
Qed.

Lemma keeps_disk_try (body : M A) (handler : exn -> M A) :
  keeps_disk body -> (forall e, keeps_disk (handler e)) ->
  keeps_disk (try_except body handler).
Proof.
  intros Hb Hh s. unfold try_except. specialize (Hb s).
  destruct (body s) as [[a|e] s1]; simpl in *; [exact Hb|].
  destruct (is_Exception e); simpl; [|exact Hb].
  now rewrite (Hh e s1).
Qed.

End KeepsDisk.

Lemma keeps_disk_foldM {A B} (f : A -> B -> M A) l :
  (forall a b, keeps_disk (f a b)) -> forall a, keeps_disk (foldM f l a).
Proof.
  intros Hf. induction l as [|b l IH]; intros a; simpl.
  - apply keeps_disk_ret.
  - apply keeps_disk_bind; [apply Hf|exact IH].
Qed.

Lemma keeps_disk_emit ev : keeps_disk (emit ev).
Proof. intros s. reflexivity. Qed.

Ltac keeps_disk :=
  repeat first
    [ apply keeps_disk_ret | apply keeps_disk_lift | apply keeps_disk_emit
    | apply keeps_disk_bind | apply keeps_disk_try | intro ].

Lemma keeps_disk_get_spotify_info w tg spotify_id :
  keeps_disk (get_spotify_info w tg spotify_id).
Proof.
  unfold get_spotify_info, fetch_entry, remote_get, log.
  apply keeps_disk_bind.
  - apply keeps_disk_bind; [apply keeps_disk_lift|]. intros key.
    destruct (cache tg !! key); [apply keeps_disk_ret|].
    destruct (spotify tg); [|apply keeps_disk_ret].
    keeps_disk.
  - intros []; keeps_disk.
Qed.

Lemma keeps_disk_reconcile w info t : keeps_disk (reconcile w info t).
Proof.
  unfold reconcile. apply keeps_disk_foldM. intros [ogg changed] var.
  unfold reconcile_var, fetch_picture, log.
  destruct (is_none _); [apply keeps_disk_ret|].
  destruct (String.eqb var "image").
  - destruct (negb _); keeps_disk.
  - destruct (negb _); keeps_disk.
Qed.

(** When [write_tags] raises, the files are as they were: a file is
    written by [save] alone, the last step. *)
Lemma write_tags_raise_keeps_disk w tg fname e s s' :
  write_tags w tg fname s = (Raise e, s') -> disk s' = disk s.
Proof.
  unfold write_tags, open_ogg, bind at 1. intros H.
  destruct (disk s !! fname) as [txt|]; [|now inversion H].
  set (ogg := map _ txt) in H.
  destruct (negb (tags_contains "spotify_id" ogg)); [now inversion H|].
  unfold bind at 1, lift at 1 in H.
  destruct (getindex _ 0) as [id|]; [|now inversion H].
  unfold bind at 1 in H.
  pose proof (keeps_disk_get_spotify_info w tg id s) as Hd1.
  destruct (get_spotify_info w tg id s) as [[[info|]|e1] s1]; simpl in Hd1;
    [| now inversion H | inversion H; subst; exact Hd1].
  unfold bind at 1 in H.
  pose proof (keeps_disk_reconcile w info ogg s1) as Hd2.
  destruct (reconcile w info ogg s1) as [[[t' c]|e2] s2]; simpl in Hd2;
    [|inversion H; subst; congruence].
  simpl in H. destruct c; [|now inversion H].
  unfold bind, log, emit, save_ogg in H. simpl in H.
  destruct (vcomment_valid t'); inversion H; subst. simpl. congruence.
Qed.

Lemma main_ends_at_first_exception w tg fname files e s s' :
  write_tags w tg fname s = (Raise e, s') ->
  foldM (fun _ f => write_tags w tg f) (fname :: files) tt s = (Raise e, s').
Proof. intros H. now rewrite foldM_cons, H. Qed.

(** ** The export *)

Lemma foldR_inv {A B} (P : A -> Prop) (f : A -> B -> result A) l :
  (forall a b a', P a -> f a b = Ok a' -> P a') ->
  forall a r, P a -> foldR f l a = Ok r -> P r.
Proof.
  intros Hstep. induction l as [|b l IH]; simpl; intros a r Ha H.
  - now inversion H; subst.
  - destruct (f a b) as [a'|e] eqn:E; simpl in H; [|discriminate].
    exact (IH a' r (Hstep a b a' Ha E) H).
Qed.

Lemma py_eqb_str v s : py_eqb v (PStr s) = true <-> v = PStr s.
Proof.
  destruct v; simpl; try (split; intros; discriminate).
  rewrite String.eqb_eq. split; congruence.
Qed.

Lemma add_song_inv folder uri folder' :
  add_song folder uri = Ok folder' ->
  Forall (fun s => is_track_uri s = true) (songs folder) ->
  Forall (fun s => is_track_uri s = true) (songs folder').
Proof.
  unfold add_song. intros H Hf.
  destruct uri; try discriminate.
  destruct (String.prefix track_prefix s) eqn:Hp; inversion H; subst; simpl;
    [|exact Hf].
  apply Forall_app. split; [exact Hf|]. now constructor.
Qed.

Lemma collect_inv is_album folder_name p folder :
  collect is_album folder_name p = Ok folder ->
  Forall (fun s => is_track_uri s = true) (songs folder).
Proof.
  unfold collect, rbind. intros H.
  destruct (if is_album then _ else _) as [tracks|]; [|discriminate].
  destruct (py_iter tracks) as [l|]; [|discriminate].
  revert H.
  apply (foldR_inv (fun f => Forall (fun s => is_track_uri s = true) (songs f)));
    [|constructor].
  intros a t a' Ha Hstep. unfold rbind in Hstep.
  destruct (track_uri t) as [uri|]; [|discriminate].
  exact (add_song_inv a uri a' Hstep Ha).
Qed.

(** A candidate leaves the list of folders as it is, or adds one folder
    that has songs, all of them track URIs. *)
Lemma export_one_inv w args folders p out :
  export_one w args folders p = Ok out ->
  out = folders \/ exists folder, out = folders ++ [folder] /\ folder_ok folder.
Proof.
  unfold export_one, rbind. intros H.
  destruct (py_contains "album" p) as [is_album|]; [|discriminate].
  destruct (if is_album then _ else _) as [folder_name|]; [|discriminate].
  destruct (skipped_by_filter args folder_name p) as [[|]|];
    [left; now inversion H| |discriminate].
  destruct (skipped_by_owner args p) as [[|]|];
    [left; now inversion H| |discriminate].
  destruct (collect is_album folder_name p) as [folder|] eqn:E; [|discriminate].
  apply collect_inv in E.
  destruct (songs folder) as [|s rest] eqn:Hs; inversion H; subst;
    [now left|right].
  exists folder. split; [reflexivity|]. split; rewrite Hs; [discriminate|exact E].
Qed.

Lemma app_one_neq {A} (l : list A) x : l ++ [x] <> l.
Proof.
  intros H. apply (f_equal (@List.length A)) in H.
  rewrite List.length_app in H. simpl in H. lia.
Qed.

(** C10. Every song of every exported folder starts with
    [spotify:track:]; a URI that does not start with it is dropped by
    [add_song]; and a candidate is exported only with at least one song,
    so that a candidate whose entries are all dropped is left out. *)
Theorem exported_songs_are_track_uris :
  (forall folder s,
      is_track_uri s = false -> add_song folder (PStr s) = Ok folder) /\
  (forall w args folders p out,
      export_one w args folders p = Ok out ->
      out = folders \/
      exists folder, out = folders ++ [folder] /\ folder_ok folder) /\
  (forall w args jsonobj folders,
      export_folders w args jsonobj = Ok folders ->
      Forall folder_ok folders).
Proof.
  split; [|split].
  - intros folder s Hs. unfold add_song. unfold is_track_uri in Hs.
    now rewrite Hs.
  - apply export_one_inv.
  - intros w args jsonobj folders H. unfold export_folders, rbind in H.
    destruct (things_to_export args jsonobj) as [things|]; [|discriminate].
    revert H. apply (foldR_inv (Forall folder_ok)); [|constructor].
    intros a p a' Ha Hstep.
    destruct (export_one_inv w args a p a' Hstep) as [->|(folder & -> & Hok)];
      [exact Ha|].
    apply Forall_app. split; [exact Ha|]. now constructor.
Qed.

Lemma exported_songs_are_track_uris_witness :
  add_song sample_album_folder (PStr "spotify:local:x") = Ok sample_album_folder
  /\ Forall folder_ok [sample_album_folder].
Proof.
  destruct exported_songs_are_track_uris as (Hdrop & _ & Hall).
  split.
  - apply Hdrop. reflexivity.
  - apply (Hall sample_world albums_of_me sample_document). reflexivity.
Defined.

(** C7, as stated, fails: with an owner filter, an album, which has no
    owner, is exported all the same. *)
Lemma candidate_without_owner_is_exported :
  owner albums_of_me = Some "me"
  /\ things_to_export albums_of_me sample_document
     = Ok [sample_album_candidate]
  /\ py_contains "owner" sample_album_candidate = Ok false
  /\ export_folders sample_world albums_of_me sample_document
     = Ok [sample_album_folder].
Proof. repeat split. Qed.

(** C7, amended. With an owner filter: a candidate that has an owner whose
    identifier is not the filter is skipped; a candidate that has no owner
    field is not skipped for its owner; so every candidate that is exported
    has no owner field or has the filter as its owner's identifier. *)
Theorem owner_filter_skips_other_owners w args o p folders :
  owner args = Some o ->
  o <> "" ->
  (forall id,
      py_contains "owner" p = Ok true -> owner_id p = Ok id -> id <> PStr o ->
      skipped_by_owner args p = Ok true /\
      forall out, export_one w args folders p = Ok out -> out = folders) /\
  (py_contains "owner" p = Ok false -> skipped_by_owner args p = Ok false) /\
  (forall folder,
      export_one w args folders p = Ok (folders ++ [folder]) ->
      py_contains "owner" p = Ok false \/ owner_id p = Ok (PStr o)).
Proof.
  intros Ho Hne.
  assert (skipped_by_owner args p
          = (has_owner <-? py_contains "owner" p;
             if has_owner
             then (id <-? owner_id p; Ok (negb (py_eqb id (PStr o))))
             else Ok false)%res) as Hskip.
  { unfold skipped_by_owner, owner_id. rewrite Ho.
    destruct o; [congruence|].
    unfold rbind. destruct (py_contains "owner" p) as [[|]|]; try reflexivity.
    now destruct (getitem p "owner"). }
  split; [|split].
  - intros id Hc Hid Hdiff.
    assert (skipped_by_owner args p = Ok true) as Hs.
    { rewrite Hskip, Hc. simpl. rewrite Hid. simpl.
      destruct (py_eqb id (PStr o)) eqn:E; [|reflexivity].
      apply py_eqb_str in E. contradiction. }
    split; [exact Hs|].
    intros out H. unfold export_one, rbind in H.
    destruct (py_contains "album" p) as [is_album|]; [|discriminate].
    destruct (if is_album then _ else _) as [folder_name|]; [|discriminate].
    destruct (skipped_by_filter args folder_name p) as [[|]|];
      [now inversion H| |discriminate].
    rewrite Hs in H. now inversion H.
  - intros Hc. rewrite Hskip, Hc. reflexivity.
  - intros folder H. unfold export_one, rbind in H.
    destruct (py_contains "album" p) as [is_album|]; [|discriminate].
    destruct (if is_album then _ else _) as [folder_name|]; [|discriminate].
    destruct (skipped_by_filter args folder_name p) as [[|]|];
      [inversion H as [H']; symmetry in H'; now apply app_one_neq in H'
      | |discriminate].
    rewrite Hskip in H. unfold rbind in H.
    destruct (py_contains "owner" p) as [[|]|]; [|now left|discriminate].
    right.
    destruct (owner_id p) as [id|]; [|discriminate].
    destruct (py_eqb id (PStr o)) eqn:E; simpl in H.
    + apply py_eqb_str in E. now subst.
    + inversion H as [H']. symmetry in H'. now apply app_one_neq in H'.
Qed.

Lemma owner_filter_skips_other_owners_witness :
  (forall id,
      py_contains "owner" (sample_playlist "Theirs" "you") = Ok true ->
      owner_id (sample_playlist "Theirs" "you") = Ok id -> id <> PStr "me" ->
      skipped_by_owner playlists_of_me (sample_playlist "Theirs" "you")
      = Ok true /\
      forall out,
        export_one sample_world playlists_of_me []
          (sample_playlist "Theirs" "you") = Ok out -> out = []) /\
  (py_contains "owner" (sample_playlist "Theirs" "you") = Ok false ->
   skipped_by_owner playlists_of_me (sample_playlist "Theirs" "you")
   = Ok false) /\
  (forall folder,
      export_one sample_world playlists_of_me []
        (sample_playlist "Theirs" "you") = Ok ([] ++ [folder]) ->
      py_contains "owner" (sample_playlist "Theirs" "you") = Ok false \/
      owner_id (sample_playlist "Theirs" "you") = Ok (PStr "me")).
Proof.
  apply (owner_filter_skips_other_owners sample_world playlists_of_me "me"
           (sample_playlist "Theirs" "you") []).
  - reflexivity.
  - discriminate.
Defined.

(** * Further properties *)

(** ** What a computation emits *)

Lemma state_same s : s = mkState (disk s) (trace s ++ []).
Proof. destruct s; simpl. now rewrite app_nil_r. Qed.

Lemma emits_ret {A} P (a : A) : emits P (ret a).
Proof. intros s. exists []. split; [apply state_same|constructor]. Qed.

Lemma emits_lift {A} P (r : result A) : emits P (lift r).
Proof. intros s. exists []. split; [apply state_same|constructor]. Qed.

Lemma emits_emit (P : event -> Prop) ev : P ev -> emits P (emit ev).
Proof. intros H s. exists [ev]. split; [reflexivity|now constructor]. Qed.

Lemma emits_bind {A B} P (m : M A) (k : A -> M B) :
  emits P m -> (forall a, emits P (k a)) -> emits P (bind m k).
Proof.
  intros Hm Hk s. unfold bind. destruct (Hm s) as (evs1 & E1 & H1).
  destruct (m s) as [[a|e] s1]; simpl in E1; subst s1.
  - destruct (Hk a (mkState (disk s) (trace s ++ evs1))) as (evs2 & E2 & H2).
    exists (evs1 ++ evs2). simpl in E2. rewrite E2, app_assoc.
    split; [reflexivity|]. apply Forall_app. now split.
  - now exists evs1.
Qed.

Lemma emits_try {A} P (body : M A) (handler : exn -> M A) :
  emits P body -> (forall e, emits P (handler e)) ->
  emits P (try_except body handler).
Proof.
  intros Hb Hh s. unfold try_except. destruct (Hb s) as (evs1 & E1 & H1).
  destruct (body s) as [[a|e] s1]; simpl in E1; subst s1; [now exists evs1|].
  destruct (is_Exception e); [|now exists evs1].
  destruct (Hh e (mkState (disk s) (trace s ++ evs1))) as (evs2 & E2 & H2).
  exists (evs1 ++ evs2). simpl in E2. rewrite E2, app_assoc.
  split; [reflexivity|]. apply Forall_app. now split.
Qed.

Lemma emits_foldM {A B} P (f : A -> B -> M A) l :
  (forall a b, emits P (f a b)) -> forall a, emits P (foldM f l a).
Proof.
  intros Hf. induction l as [|b l IH]; intros a; simpl.
  - apply emits_ret.
  - apply emits_bind; [apply Hf|exact IH].
Qed.

Lemma emits_weaken {A} (P Q : event -> Prop) (m : M A) :
  (forall ev, P ev -> Q ev) -> emits P m -> emits Q m.
Proof.
  intros HPQ Hm s. destruct (Hm s) as (evs & E & H).
  exists evs. split; [exact E|]. exact (List.Forall_impl _ HPQ H).
Qed.

(** ** Results that do not depend on the state *)

Lemma stateless_ret {A} (a : A) : stateless (ret a).
Proof. intros s1 s2. reflexivity. Qed.

Lemma stateless_lift {A} (r : result A) : stateless (lift r).
Proof. intros s1 s2. reflexivity. Qed.

Lemma stateless_emit ev : stateless (emit ev).
Proof. intros s1 s2. reflexivity. Qed.

Lemma stateless_bind {A B} (m : M A) (k : A -> M B) :
  stateless m -> (forall a, stateless (k a)) -> stateless (bind m k).
Proof.
  intros Hm Hk s1 s2. unfold bind. specialize (Hm s1 s2).
  destruct (m s1) as [[a1|e1] t1], (m s2) as [[a2|e2] t2]; simpl in Hm;
    try discriminate; inversion Hm; subst; [apply Hk|reflexivity].
Qed.

Lemma stateless_try {A} (body : M A) (handler : exn -> M A) :
  stateless body -> (forall e, stateless (handler e)) ->
  stateless (try_except body handler).
Proof.
  intros Hb Hh s1 s2. unfold try_except. specialize (Hb s1 s2).
  destruct (body s1) as [[a1|e1] t1], (body s2) as [[a2|e2] t2]; simpl in Hb;
    try discriminate; inversion Hb; subst; [reflexivity|].
  destruct (is_Exception e2); [apply Hh|reflexivity].
Qed.

Lemma stateless_foldM {A B} (f : A -> B -> M A) l :
  (forall a b, stateless (f a b)) -> forall a, stateless (foldM f l a).
Proof.
  intros Hf. induction l as [|b l IH]; intros a; simpl.
  - apply stateless_ret.
  - apply stateless_bind; [apply Hf|exact IH].
Qed.

Ltac effects :=
  repeat first
    [ apply emits_ret | apply emits_lift | apply emits_emit
    | apply emits_bind | apply emits_try
    | apply stateless_ret | apply stateless_lift | apply stateless_emit
    | apply stateless_bind | apply stateless_try
    | exact I | intro ].

Lemma emits_get_spotify_info w tg spotify_id :
  emits (fun ev => not_save ev /\ not_http ev) (get_spotify_info w tg spotify_id).
Proof.
  unfold get_spotify_info, fetch_entry, remote_get, log.
  apply emits_bind.
  - apply emits_bind; [apply emits_lift|]. intros key.
    destruct (cache tg !! key); [apply emits_ret|].
    destruct (spotify tg); [|apply emits_ret].
    effects; now split.
  - intros []; effects.
Qed.

Lemma stateless_get_spotify_info w tg spotify_id :
  stateless (get_spotify_info w tg spotify_id).
Proof.
  unfold get_spotify_info, fetch_entry, remote_get, log.
  apply stateless_bind.
  - apply stateless_bind; [apply stateless_lift|]. intros key.
    destruct (cache tg !! key); [apply stateless_ret|].
    destruct (spotify tg); [|apply stateless_ret].
    effects.
  - intros []; effects.
Qed.

Lemma emits_reconcile_var w info acc var :
  emits not_save (reconcile_var w info acc var).
Proof.
  destruct acc as [ogg changed].
  unfold reconcile_var, fetch_picture, log.
  destruct (is_none _); [apply emits_ret|].
  destruct (String.eqb var "image"); destruct (negb _); effects.
Qed.

Lemma stateless_reconcile_var w info acc var :
  stateless (reconcile_var w info acc var).
Proof.
  destruct acc as [ogg changed].
  unfold reconcile_var, fetch_picture, log.
  destruct (is_none _); [apply stateless_ret|].
  destruct (String.eqb var "image"); destruct (negb _); effects.
Qed.

Lemma emits_reconcile w info t : emits not_save (reconcile w info t).
Proof. apply emits_foldM. intros. apply emits_reconcile_var. Qed.

Lemma stateless_reconcile w info t : stateless (reconcile w info t).
Proof. apply stateless_foldM. intros. apply stateless_reconcile_var. Qed.

(** ** The resolver, further *)

(** X1. An identifier found in the index is resolved from the cached entry
    alone: nothing is asked of the remote service, nothing is logged, and
    the state is as it was, whether or not a service handle is there. *)
Theorem cached_track_needs_no_request w tg (id : string) entry s :
  cache tg !! KStr id = Some entry ->
  get_spotify_info w tg (PStr id) s
  = (if is_none entry then Ok None
     else (info <-? build_info w (PStr id) entry; Ok (Some info))%res,
     s).
Proof.
  intros Hc. unfold get_spotify_info, fetch_entry, bind, lift, ret. simpl.
  rewrite Hc.
  destruct entry; simpl; try reflexivity;
    now destruct (build_info w (PStr id) _).
Qed.

Lemma cached_track_needs_no_request_witness :
  get_spotify_info sample_world
    (mkTagger {[KStr "a1" := two_size_entry]} (Some sample_api)) (PStr "a1")
    (mkState ∅ [])
  = (if is_none two_size_entry then Ok None
     else (info <-? build_info sample_world (PStr "a1") two_size_entry;
           Ok (Some info))%res,
     mkState ∅ []).
Proof.
  apply (cached_track_needs_no_request sample_world
           (mkTagger {[KStr "a1" := two_size_entry]} (Some sample_api))
           "a1" two_size_entry (mkState ∅ [])).
  vm_compute. reflexivity.
Defined.






(** ** Reconciliation, further *)

(** X3. After reconciliation the file agrees with the record: the tag of
    every field that is set, the image apart, holds the value of the field
    (as a list), and when the record has an image the file has a cover
    picture. *)
Theorem reconciled_tags_match_record w info t s t' c s' :
  reconcile w info t s = (Ok (t', c), s') ->
  (forall var,
      In var vars -> var <> "image" -> is_none (info_get info var) = false ->
      list_eqb (as_list (info_get info var)) (tags_get var t') = true) /\
  (is_none (image info) = false -> tags_get cover_key t' <> []).
Proof.
  intros H. unfold reconcile in H.
  pose proof (reconcile_loop_settles w info vars _ _ _ _ _ _
                vars_dep_keys_distinct H) as Hall.
  rewrite List.Forall_forall in Hall. split.
  - intros var Hin Hne Hset. specialize (Hall var Hin).
    unfold settled in Hall. rewrite Hset in Hall. simpl in Hall.
    destruct (String.eqb_spec var "image"); [contradiction|exact Hall].
  - intros Hset.
    assert (In "image" vars) as Hin by (simpl; tauto).
    specialize (Hall "image" Hin). unfold settled in Hall.
    change (info_get info "image") with (image info) in Hall.
    rewrite Hset in Hall. simpl in Hall.
    now apply tags_get_opt_truthy in Hall.
Qed.

Lemma reconciled_tags_match_record_witness :
  (forall var,
      In var vars -> var <> "image" ->
      is_none (info_get sample_info var) = false ->
      list_eqb (as_list (info_get sample_info var))
               (tags_get var sample_tags_done) = true) /\
  (is_none (image sample_info) = false ->
   tags_get cover_key sample_tags_done <> []).
Proof.
  apply (reconciled_tags_match_record sample_world sample_info sample_tags
           (mkState ∅ []) sample_tags_done true (mkState ∅ sample_events)).
  vm_compute. reflexivity.
Defined.

Lemma reconcile_var_step w info t c var s t1 c1 s1 :
  reconcile_var w info (t, c) var s = (Ok (t1, c1), s1) ->
  (t1 = t /\ c1 = c /\ s1 = s) \/
  (c1 = true /\ tags_get (dep_key var) t1 <> tags_get (dep_key var) t).
Proof.
  unfold reconcile_var, dep_key. intros H.
  destruct (is_none (info_get info var)); [left; now inversion H|].
  destruct (String.eqb var "image").
  - destruct (truthy (tags_get_opt cover_key t)) eqn:Ht; simpl in H;
      [left; now inversion H|].
    right. unfold bind in H.
    destruct (fetch_picture w (image info) t s) as [[ogg'|e] s2] eqn:E;
      [|discriminate].
    apply fetch_picture_inv in E as [v ->].
    inversion H; subst. split; [reflexivity|].
    rewrite tags_get_set_same. intros Heq.
    assert (truthy (tags_get_opt cover_key t) = true) as Ht'.
    { apply tags_get_opt_truthy. unfold tags_get in Heq.
      rewrite <- Heq. discriminate. }
    congruence.
  - destruct (list_eqb _ _) eqn:Heq; simpl in H; [left; now inversion H|].
    right. run_M H. inversion H; subst. split; [reflexivity|].
    rewrite tags_get_set_same. intros Hsame.
    rewrite <- Hsame, list_eqb_refl in Heq. discriminate.
Qed.

Lemma reconcile_loop_step w info l : forall t c s t' c' s',
  distinct (map (fun var => lower (dep_key var)) l) = true ->
  foldM (reconcile_var w info) l (t, c) s = (Ok (t', c'), s') ->
  (t' = t /\ c' = c /\ s' = s) \/
  (c' = true /\
   exists var, In var l /\
               tags_get (dep_key var) t' <> tags_get (dep_key var) t).
Proof.
  induction l as [|var l IH]; intros t c s t' c' s' Hd H.
  - left. now inversion H.
  - rewrite foldM_cons in H.
    destruct (reconcile_var w info (t, c) var s) as [[[t1 c1]|e] s1] eqn:E;
      [|discriminate].
    change (map _ (var :: l)) with
      (lower (dep_key var) :: map (fun var => lower (dep_key var)) l) in Hd.
    apply distinct_hd in Hd as [Hne Hd].
    rewrite List.Forall_map in Hne.
    destruct (reconcile_var_step _ _ _ _ _ _ _ _ _ E)
      as [(-> & -> & ->)|[-> Hdiff]].
    + destruct (IH _ _ _ _ _ _ Hd H) as [Hsame|[Hc (v & Hin & Hv)]];
        [now left|right].
      split; [exact Hc|]. exists v. split; [now right|exact Hv].
    + right.
      assert (tags_get (dep_key var) t' = tags_get (dep_key var) t1) as Hkeep
        by exact (reconcile_loop_frame w info l _ _ _ _ _ _ _ H Hne).
      split.
      * destruct (IH _ _ _ _ _ _ Hd H) as [(_ & Hc & _)|[Hc _]]; exact Hc.
      * exists var. split; [now left|]. now rewrite Hkeep.
Qed.

(** X4. The [changed] flag tells the truth: when it is false the tags
    returned are the tags given and nothing was logged or requested; when
    it is true the tags returned differ from the tags given. *)
Theorem changed_flag_is_accurate w info t s t' c s' :
  reconcile w info t s = (Ok (t', c), s') ->
  (c = false -> t' = t /\ s' = s) /\ (c = true -> t' <> t).
Proof.
  intros H. unfold reconcile in H.
  destruct (reconcile_loop_step w info vars _ _ _ _ _ _
              vars_dep_keys_distinct H)
    as [(-> & -> & ->)|[-> (var & _ & Hvar)]].
  - split; [now split|discriminate].
  - split; [discriminate|]. intros _ Heq. now rewrite Heq in Hvar.
Qed.

Lemma changed_flag_is_accurate_witness :
  (true = false ->
   sample_tags_done = sample_tags /\ mkState ∅ sample_events = mkState ∅ [])
  /\ (true = true -> sample_tags_done <> sample_tags).
Proof.
  apply (changed_flag_is_accurate sample_world sample_info sample_tags
           (mkState ∅ [])).
  vm_compute. reflexivity.
Defined.

Lemma foldM_app {A B} (f : A -> B -> M A) l1 l2 a s :
  foldM f (l1 ++ l2) a s = bind (foldM f l1 a) (foldM f l2) s.
Proof.
  revert a s. induction l1 as [|b l1 IH]; intros a s; [reflexivity|].
  change ((b :: l1) ++ l2) with (b :: (l1 ++ l2)).
  rewrite foldM_cons. unfold bind at 1. rewrite foldM_cons.
  destruct (f a b s) as [[a'|e] s1]; [|reflexivity].
  rewrite IH. reflexivity.
Qed.

Lemma emits_foldM_each {A B} P (f : A -> B -> M A) l :
  Forall (fun b => forall a, emits P (f a b)) l ->
  forall a, emits P (foldM f l a).
Proof.
  induction 1 as [|b l Hb _ IH]; intros a; simpl.
  - apply emits_ret.
  - apply emits_bind; [apply Hb|exact IH].
Qed.

Lemma no_http_filter evs : Forall not_http evs -> List.filter is_http evs = [].
Proof.
  induction 1 as [|ev evs Hev _ IH]; [reflexivity|].
  simpl. destruct ev; simpl in *; try exact IH. contradiction.
Qed.

Lemma plain_var_emits w info acc var :
  String.eqb var "image" = false ->
  emits not_http (reconcile_var w info acc var).
Proof.
  intros Hv. destruct acc as [ogg changed].
  unfold reconcile_var, log. rewrite Hv.
  destruct (is_none _); [apply emits_ret|].
  destruct (negb _); effects.
Qed.

Lemma fetch_picture_events w img t s :
  exists evs,
    snd (fetch_picture w img t s) = mkState (disk s) (trace s ++ evs) /\
    (evs = [] \/
     exists url width height,
       getitem img "url" = Ok url /\
       evs = [Log INFO (MsgFetching url width height); HttpGet url]).
Proof.
  unfold fetch_picture, bind, lift, log, emit, ret. simpl.
  destruct (getitem img "url") as [url|]; simpl;
    [|exists []; split; [apply state_same|now left]].
  destruct (getitem img "width") as [width|]; simpl;
    [|exists []; split; [apply state_same|now left]].
  destruct (getitem img "height") as [height|]; simpl;
    [|exists []; split; [apply state_same|now left]].
  exists [Log INFO (MsgFetching url width height); HttpGet url].
  split; [|right; now exists url, width, height].
  destruct (requests_get w url); simpl;
    [destruct (picture_write w _); simpl|];
    now rewrite <- app_assoc.
Qed.

Lemma image_step_events w info t c s :
  exists evs,
    snd (reconcile_var w info (t, c) "image" s)
    = mkState (disk s) (trace s ++ evs) /\
    (List.filter is_http evs = [] \/
     exists url,
       getitem (image info) "url" = Ok url /\
       List.filter is_http evs = [HttpGet url] /\
       tags_get cover_key t = [] /\
       is_none (image info) = false).
Proof.
  unfold reconcile_var.
  change (info_get info "image") with (image info).
  rewrite String.eqb_refl.
  destruct (is_none (image info)) eqn:Hn;
    [exists []; split; [apply state_same|now left]|].
  destruct (truthy (tags_get_opt cover_key t)) eqn:Ht; simpl;
    [exists []; split; [apply state_same|now left]|].
  destruct (fetch_picture_events w (image info) t s)
    as (evs & E & [->|(url & width & height & Hurl & ->)]).
  - exists []. split; [|now left].
    unfold bind, ret. destruct (fetch_picture w (image info) t s) as [[x|e] s1];
      simpl in *; exact E.
  - eexists. split.
    + unfold bind, ret.
      destruct (fetch_picture w (image info) t s) as [[x|e] s1];
        simpl in *; exact E.
    + right. exists url. repeat split; [exact Hurl|].
      destruct (tags_get cover_key t) eqn:Hg; [reflexivity|].
      assert (truthy (tags_get_opt cover_key t) = true) as Ht'.
      { apply tags_get_opt_truthy. unfold tags_get in Hg. now rewrite Hg. }
      congruence.
Qed.

(** X5. Reconciliation asks for a picture at most once, and only when the
    record has an image and the file has no cover: the request is then for
    the [url] of the image.  No other request is made over HTTP. *)
Theorem cover_is_requested_at_most_once w info t s :
  exists evs,
    snd (reconcile w info t s) = mkState (disk s) (trace s ++ evs) /\
    (List.filter is_http evs = [] \/
     exists url,
       getitem (image info) "url" = Ok url /\
       List.filter is_http evs = [HttpGet url] /\
       tags_get cover_key t = [] /\
       is_none (image info) = false).
Proof.
  unfold reconcile.
  change vars with (["title"; "artist"; "album"; "tracknumber"]
                      ++ "image" :: ["year"; "spotify_id"]).
  rewrite foldM_app. unfold bind at 1.
  assert (forall l a,
             Forall (fun var => String.eqb var "image" = false) l ->
             emits not_http (foldM (reconcile_var w info) l a)) as Hplain.
  { intros l a Hl. apply emits_foldM_each.
    revert Hl. apply List.Forall_impl. intros var Hv acc.
    now apply plain_var_emits. }
  destruct (Hplain ["title"; "artist"; "album"; "tracknumber"] (t, false)
              ltac:(repeat constructor) s) as (evs1 & E1 & H1).
  pose proof (reconcile_loop_frame w info
                ["title"; "artist"; "album"; "tracknumber"] t false s) as Hfr.
  destruct (foldM (reconcile_var w info) _ (t, false) s)
    as [[[t1 c1]|e] s1]; simpl in E1; subst s1;
    [|exists evs1; split; [reflexivity|left; now apply no_http_filter]].
  assert (tags_get cover_key t1 = tags_get cover_key t) as Hcov.
  { apply (Hfr t1 c1 _ cover_key eq_refl).
    repeat (apply List.Forall_cons; [discriminate|]). apply List.Forall_nil. }
  rewrite foldM_cons.
  destruct (image_step_events w info t1 c1
              (mkState (disk s) (trace s ++ evs1))) as (evs2 & E2 & H2).
  assert (List.filter is_http (evs1 ++ evs2) = List.filter is_http evs2) as Hf12.
  { now rewrite List.filter_app, (no_http_filter evs1 H1). }
  destruct (reconcile_var w info (t1, c1) "image" _) as [[a2|e] s2];
    simpl in E2; subst s2.
  - destruct (Hplain ["year"; "spotify_id"] a2 ltac:(repeat constructor)
                (mkState (disk s) ((trace s ++ evs1) ++ evs2)))
      as (evs3 & E3 & H3).
    cbn [disk trace] in E3. exists (evs1 ++ evs2 ++ evs3).
    split; [rewrite E3; now rewrite !app_assoc|].
    rewrite app_assoc, List.filter_app, Hf12, (no_http_filter evs3 H3),
      app_nil_r.
    destruct H2 as [H2|(url & Hu & H2 & Hc & Hn)]; [now left|right].
    exists url. rewrite <- Hcov. now repeat split.
  - exists (evs1 ++ evs2). split; [simpl; now rewrite app_assoc|].
    rewrite Hf12.
    destruct H2 as [H2|(url & Hu & H2 & Hc & Hn)]; [now left|right].
    exists url. rewrite <- Hcov. now repeat split.
Qed.

(** ** [write_tags] and [main], further *)

(** [write_tags] on a file that opens, step by step. *)
Lemma write_tags_opened w tg fname s txt :
  disk s !! fname = Some txt ->
  write_tags w tg fname s
  = (if negb (tags_contains "spotify_id" (opened txt))
     then log INFO (MsgNoSpotifyId fname) s
     else
       match getindex (tags_get_opt "spotify_id" (opened txt)) 0 with
       | Raise e => (Raise e, s)
       | Ok id =>
           match get_spotify_info w tg id s with
           | (Raise e, s2) => (Raise e, s2)
           | (Ok None, s2) => log ERROR (MsgCannotGetInfo id fname) s2
           | (Ok (Some info), s2) =>
               match reconcile w info (opened txt) s2 with
               | (Raise e, s3) => (Raise e, s3)
               | (Ok (t', false), s3) => (Ok tt, s3)
               | (Ok (t', true), s3) =>
                   bind (log INFO (MsgSaving fname))
                        (fun _ => save_ogg fname t') s3
               end
           end
       end).
Proof.
  intros Hd. unfold write_tags, open_ogg, bind at 1. rewrite Hd.
  fold (opened txt).
  destruct (negb (tags_contains "spotify_id" (opened txt))); [reflexivity|].
  unfold bind at 1, lift at 1.
  destruct (getindex _ 0) as [id|]; [|reflexivity].
  unfold bind at 1.
  destruct (get_spotify_info w tg id s) as [[[info|]|e] s2]; try reflexivity.
  unfold bind at 1.
  destruct (reconcile w info (opened txt) s2) as [[[t' [|]]|e] s3];
    reflexivity.
Qed.

Lemma write_tags_missing w tg fname s :
  disk s !! fname = None ->
  write_tags w tg fname s = (Raise (OtherException "MutagenError"), s).
Proof.
  intros Hd. unfold write_tags, open_ogg, bind at 1. now rewrite Hd.
Qed.

Lemma emits_disk {A} P (m : M A) s : emits P m -> disk (snd (m s)) = disk s.
Proof. intros H. destruct (H s) as (evs & E & _). now rewrite E. Qed.

Lemma save_ogg_other fname ogg s f :
  f <> fname -> disk (snd (save_ogg fname ogg s)) !! f = disk s !! f.
Proof.
  intros Hne. unfold save_ogg.
  destruct (vcomment_valid ogg); simpl; [|reflexivity].
  now apply lookup_insert_ne.
Qed.

Lemma write_tags_other_files w tg fname s f :
  f <> fname -> disk (snd (write_tags w tg fname s)) !! f = disk s !! f.
Proof.
  intros Hne.
  destruct (disk s !! fname) as [txt|] eqn:Hd;
    [|now rewrite (write_tags_missing _ _ _ _ Hd)].
  rewrite (write_tags_opened _ _ _ _ _ Hd).
  destruct (negb _); [reflexivity|].
  destruct (getindex _ 0) as [id|]; [|reflexivity].
  pose proof (emits_disk _ _ s (emits_get_spotify_info w tg id)) as Hd1.
  destruct (get_spotify_info w tg id s) as [[[info|]|e] s2]; simpl in Hd1;
    [|simpl; now rewrite Hd1|simpl; now rewrite Hd1].
  pose proof (emits_disk _ _ s2 (emits_reconcile w info (opened txt))) as Hd2.
  destruct (reconcile w info (opened txt) s2) as [[[t' [|]]|e] s3];
    simpl in Hd2; [|simpl; congruence|simpl; congruence].
  unfold bind, log, emit. simpl.
  rewrite (save_ogg_other fname t' _ f Hne). simpl. congruence.
Qed.

(** X6. A run only writes the files it is given: the comment of any other
    file is, at the end, what it was at the start, however the run ends. *)
Theorem main_touches_listed_files_only w api json files s f :
  ~ In f files ->
  disk (snd (main w api json files s)) !! f = disk s !! f.
Proof.
  intros Hf. unfold main, bind at 1, lift.
  destruct (match json with Some _ => _ | None => _ end) as [c|];
    [|reflexivity].
  generalize tt as u. revert s.
  induction files as [|fname files IH]; intros s u; [reflexivity|].
  rewrite foldM_cons.
  pose proof (write_tags_other_files w (mkTagger c api) fname s f) as Hstep.
  destruct (write_tags w (mkTagger c api) fname s) as [[u1|e] s1];
    simpl in Hstep.
  - rewrite IH; [|intros Hin; apply Hf; now right].
    apply Hstep. intros ->. apply Hf. now left.
  - simpl. apply Hstep. intros ->. apply Hf. now left.
Qed.

Lemma main_touches_listed_files_only_witness :
  disk (snd (main sample_world None (Some sample_document) ["a.ogg"]
               (mkState sample_disk []))) !! "b.ogg"
  = sample_disk !! "b.ogg".
Proof.
  apply (main_touches_listed_files_only sample_world None
           (Some sample_document) ["a.ogg"] (mkState sample_disk []) "b.ogg").
  intros [H|[]]. discriminate H.
Defined.

Lemma opened_values_text txt : Forall (fun kv => is_text (snd kv) = true) (opened txt).
Proof.
  unfold opened. apply List.Forall_map. apply List.Forall_forall. now intros.
Qed.

Lemma tag_values_text key t :
  Forall (fun kv => is_text (snd kv) = true) t ->
  Forall (fun v => is_text v = true) (tag_values key t).
Proof.
  intros H. unfold tag_values. apply List.Forall_map.
  apply List.Forall_forall. intros kv Hin.
  apply List.filter_In in Hin as [Hin _].
  rewrite List.Forall_forall in H. now apply H.
Qed.

(** The identifier read from a file is a text. *)
Lemma opened_id_is_text txt id :
  getindex (tags_get_opt "spotify_id" (opened txt)) 0 = Ok id ->
  exists x, id = PStr x.
Proof.
  unfold tags_get_opt. intros H.
  pose proof (tag_values_text "spotify_id" _ (opened_values_text txt)) as Ht.
  destruct (tag_values "spotify_id" (opened txt)) as [|v vs]; [discriminate|].
  simpl in H. inversion H; subst.
  inversion Ht as [|? ? Hv _]; subst.
  destruct id; try discriminate. eauto.
Qed.

Lemma resolve_without_cache_or_service w (x : string) s :
  get_spotify_info w (mkTagger ∅ None) (PStr x) s = (Ok None, s).
Proof.
  unfold get_spotify_info, fetch_entry, bind, lift, ret. simpl.
  now rewrite lookup_empty.
Qed.

(** When the file has the tag, reading its first value cannot fail. *)
Lemma opened_id_exists t :
  tags_contains "spotify_id" t = true ->
  exists id, getindex (tags_get_opt "spotify_id" t) 0 = Ok id.
Proof.
  intros Hc. apply tags_contains_values in Hc. unfold tags_get_opt.
  destruct (tag_values "spotify_id" t) as [|v vs]; [contradiction|].
  now exists v.
Qed.

Lemma write_tags_without_cache_or_service w fname s txt :
  disk s !! fname = Some txt ->
  exists evs,
    write_tags w (mkTagger ∅ None) fname s
    = (Ok tt, mkState (disk s) (trace s ++ evs)) /\ Forall is_log evs.
Proof.
  intros Hd. rewrite (write_tags_opened _ _ _ _ _ Hd).
  destruct (tags_contains "spotify_id" (opened txt)) eqn:Hc; simpl.
  - destruct (opened_id_exists _ Hc) as [id Eid]. rewrite Eid.
    destruct (opened_id_is_text _ _ Eid) as [x ->].
    rewrite resolve_without_cache_or_service.
    eexists [_]. split; [reflexivity|]. now repeat constructor.
  - eexists [_]. split; [reflexivity|]. now repeat constructor.
Qed.

(** X7. Without an export file and without the remote service, a run over
    files that open changes none of them: it ends normally, asks nothing
    of anyone, and only logs why each file is skipped. *)
Theorem run_without_cache_or_service_changes_nothing w files s :
  (forall f, In f files -> is_Some (disk s !! f)) ->
  exists evs,
    main w None None files s = (Ok tt, mkState (disk s) (trace s ++ evs)) /\
    Forall is_log evs.
Proof.
  unfold main, bind at 1, lift.
  generalize tt at 1 as u. revert s.
  induction files as [|fname files IH]; intros s u Hfiles.
  - destruct u. exists []. split; [simpl; f_equal; apply state_same|constructor].
  - rewrite foldM_cons.
    destruct (Hfiles fname (or_introl eq_refl)) as [txt Hd].
    destruct (write_tags_without_cache_or_service w fname s txt Hd)
      as (evs1 & -> & H1).
    destruct (IH (mkState (disk s) (trace s ++ evs1)) tt) as (evs2 & E2 & H2).
    { intros f Hin. apply Hfiles. now right. }
    exists (evs1 ++ evs2). rewrite E2. simpl. rewrite app_assoc.
    split; [reflexivity|]. apply Forall_app. now split.
Qed.

Lemma run_without_cache_or_service_changes_nothing_witness :
  exists evs,
    main sample_world None None ["a.ogg"; "b.ogg"] (mkState sample_disk [])
    = (Ok tt, mkState sample_disk ([] ++ evs)) /\
    Forall is_log evs.
Proof.
  apply (run_without_cache_or_service_changes_nothing sample_world
           ["a.ogg"; "b.ogg"] (mkState sample_disk [])).
  intros f [<-|[<-|[]]]; eexists; vm_compute; reflexivity.
Defined.

(** Running a computation again, from another state. *)
Lemma rerun {A} P (m : M A) s s' :
  stateless m -> emits P m ->
  exists evs,
    m s' = (fst (m s), mkState (disk s') (trace s' ++ evs)) /\ Forall P evs.
Proof.
  intros Hs He. destruct (He s') as (evs & E & H).
  exists evs. split; [|exact H].
  rewrite <- E, (Hs s s'). now destruct (m s').
Qed.

Lemma opened_saved t : vcomment_valid t = true -> opened (saved t) = t.
Proof.
  unfold opened, saved, vcomment_valid.
  induction t as [|[k v] t IH]; simpl; intros H; [reflexivity|].
  apply andb_prop in H as [Hv Ht].
  rewrite (IH Ht). destruct v; try discriminate. reflexivity.
Qed.

Lemma resolved_id w tg id s info s' :
  get_spotify_info w tg id s = (Ok (Some info), s') -> spotify_id info = id.
Proof.
  unfold get_spotify_info, bind at 1. intros H.
  destruct (fetch_entry w tg id s) as [[entry|] s1]; [|discriminate].
  assert (forall r, (info0 <- lift (build_info w id entry);; ret (Some info0)) s1
                    = (Ok (Some info), r) -> spotify_id info = id) as Hb.
  { intros r Hr. unfold bind, lift, ret in Hr.
    destruct (build_info w id entry) as [i|] eqn:E; [|discriminate].
    inversion Hr; subst.
    unfold build_info, rbind in E.
    repeat match type of E with
           | context [match ?r with Ok _ => _ | Raise _ => _ end] =>
               destruct r; try discriminate E
           end.
    now inversion E. }
  destruct entry; try exact (Hb _ H). discriminate.
Qed.

Lemma list_eqb_one_text x l : list_eqb [PStr x] l = true -> l = [PStr x].
Proof.
  destruct l as [|v [|v' l]]; simpl; try discriminate.
  - rewrite andb_true_r. intros H.
    destruct v; try discriminate. simpl in H.
    apply String.eqb_eq in H. now subst.
  - now rewrite andb_false_r.
Qed.

(** X8. Running [write_tags] again on a file it has just processed saves
    nothing: the second run ends normally and leaves the file as the first
    run left it (the remote service answering as it did). *)
Theorem second_run_saves_nothing w tg fname s s1 :
  write_tags w tg fname s = (Ok tt, s1) ->
  exists evs,
    write_tags w tg fname s1
    = (Ok tt, mkState (disk s1) (trace s1 ++ evs)) /\
    Forall not_save evs.
Proof.
  intros H.
  destruct (disk s !! fname) as [txt|] eqn:Hd;
    [|rewrite (write_tags_missing _ _ _ _ Hd) in H; discriminate].
  rewrite (write_tags_opened _ _ _ _ _ Hd) in H.
  destruct (tags_contains "spotify_id" (opened txt)) eqn:Hc; simpl in H.
  2:{ inversion H; subst.
      rewrite (write_tags_opened _ _ _ _ txt); [|exact Hd].
      rewrite Hc. simpl. eexists [_]. split; [reflexivity|].
      now repeat constructor. }
  destruct (getindex _ 0) as [id|] eqn:Eid; [|discriminate].
  destruct (opened_id_is_text _ _ Eid) as [x ->].
  destruct (emits_get_spotify_info w tg (PStr x) s) as (evs_a & Ea & _).
  destruct (get_spotify_info w tg (PStr x) s) as [[[info|]|e] s2] eqn:Eg;
    simpl in Ea; subst s2; [| |discriminate].
  2:{ inversion H; subst.
      rewrite (write_tags_opened _ _ _ _ txt); [|exact Hd].
      rewrite Hc, Eid. simpl negb. cbv iota.
      destruct (rerun _ _ s
                  (mkState (disk s)
                     ((trace s ++ evs_a)
                        ++ [Log ERROR (MsgCannotGetInfo (PStr x) fname)]))
                  (stateless_get_spotify_info w tg (PStr x))
                  (emits_get_spotify_info w tg (PStr x)))
        as (evs_b & -> & Hb).
      rewrite Eg. simpl.
      eexists (evs_b ++ [_]). rewrite app_assoc. split; [reflexivity|].
      apply Forall_app. split; [|now repeat constructor].
      revert Hb. apply List.Forall_impl. tauto. }
  destruct (emits_reconcile w info (opened txt)
              (mkState (disk s) (trace s ++ evs_a))) as (evs_r & Er & _).
  destruct (reconcile w info (opened txt) _) as [[[t' c]|e] s3] eqn:Erec;
    simpl in Er; subst s3; [|discriminate].
  destruct c.
  - (* the first run saved the file *)
    unfold bind, log, emit, save_ogg in H. simpl in H.
    destruct (vcomment_valid t') eqn:Hvalid; [|discriminate].
    inversion H; subst. clear H.
    rewrite (write_tags_opened _ _ _ _ (saved t'));
      [|simpl; fold (saved t'); apply lookup_insert_eq].
    rewrite (opened_saved _ Hvalid).
    pose proof (resolved_id _ _ _ _ _ _ Eg) as Hid.
    pose proof (reconcile_loop_settles w info vars _ _ _ _ _ _
                  vars_dep_keys_distinct Erec) as Hall.
    assert (tags_get "spotify_id" t' = [PStr x]) as Hget.
    { rewrite List.Forall_forall in Hall.
      assert (In "spotify_id" vars) as Hin by (simpl; tauto).
      specialize (Hall _ Hin). unfold settled in Hall.
      change (info_get info "spotify_id") with (spotify_id info) in Hall.
      rewrite Hid in Hall. simpl in Hall.
      now apply list_eqb_one_text. }
    assert (tags_contains "spotify_id" t' = true) as Hc'.
    { apply tags_contains_values. unfold tags_get in Hget.
      now rewrite Hget. }
    rewrite Hc'. simpl negb. cbv iota.
    unfold tags_get_opt. unfold tags_get in Hget. rewrite Hget. simpl getindex.
    cbv beta iota.
    match goal with
    | |- context [get_spotify_info w tg (PStr x) ?st] =>
        destruct (rerun _ _ s st
                    (stateless_get_spotify_info w tg (PStr x))
                    (emits_get_spotify_info w tg (PStr x)))
          as (evs_b & -> & Hb)
    end.
    rewrite Eg. simpl fst. cbv iota.
    rewrite (reconcile_loop_settled w info vars t' false _ Hall
             : reconcile w info t' _ = _).
    exists evs_b. split; [reflexivity|].
    revert Hb. apply List.Forall_impl. tauto.
  - (* the first run found nothing to change *)
    inversion H; subst. clear H.
    rewrite (write_tags_opened _ _ _ _ txt); [|exact Hd].
    rewrite Hc, Eid. simpl negb. cbv iota.
    match goal with
    | |- context [get_spotify_info w tg (PStr x) ?st] =>
        destruct (rerun _ _ s st
                    (stateless_get_spotify_info w tg (PStr x))
                    (emits_get_spotify_info w tg (PStr x)))
          as (evs_b & -> & Hb)
    end.
    rewrite Eg. simpl fst. cbv iota.
    match goal with
    | |- context [reconcile w info (opened txt) ?st] =>
        destruct (rerun _ _ (mkState (disk s) (trace s ++ evs_a)) st
                    (stateless_reconcile w info (opened txt))
                    (emits_reconcile w info (opened txt)))
          as (evs_c & -> & Hc2)
    end.
    rewrite Erec. simpl.
    exists (evs_b ++ evs_c). rewrite app_assoc. split; [reflexivity|].
    apply Forall_app. split; [|exact Hc2].
    revert Hb. apply List.Forall_impl. tauto.
Qed.

Lemma second_run_saves_nothing_witness :
  exists evs,
    write_tags sample_world sample_tagger "a.ogg"
      (snd (write_tags sample_world sample_tagger "a.ogg"
              (mkState sample_disk [])))
    = (Ok tt,
       mkState
         (disk (snd (write_tags sample_world sample_tagger "a.ogg"
                       (mkState sample_disk []))))
         (trace (snd (write_tags sample_world sample_tagger "a.ogg"
                        (mkState sample_disk []))) ++ evs)) /\
    Forall not_save evs.
Proof.
  apply (second_run_saves_nothing sample_world sample_tagger "a.ogg"
           (mkState sample_disk [])).
  vm_compute. reflexivity.
Defined.

(** ** The track index, further *)

Lemma foldR_inv_each {A B} (P : A -> Prop) (f : A -> B -> result A) l :
  (forall a b a', In b l -> P a -> f a b = Ok a' -> P a') ->
  forall a r, P a -> foldR f l a = Ok r -> P r.
Proof.
  induction l as [|b l IH]; simpl; intros Hstep a r Ha H.
  - now inversion H; subst.
  - destruct (f a b) as [a'|e] eqn:E; simpl in H; [|discriminate].
    apply (IH (fun a0 b0 a1 Hin => Hstep a0 b0 a1 (or_intror Hin)) a' r);
      [|exact H].
    exact (Hstep a b a' (or_introl eq_refl) Ha E).
Qed.

Lemma cache_store_inv (P : pykey -> pyval -> Prop) key value c c' :
  cache_store key value c = Ok c' ->
  (forall k, to_key key = Ok k -> P k value) ->
  (forall k v, c !! k = Some v -> P k v) ->
  forall k v, c' !! k = Some v -> P k v.
Proof.
  unfold cache_store, rbind. intros H Hnew Hold k v Hk.
  destruct (to_key key) as [k'|]; [|discriminate]. inversion H; subst.
  rewrite lookup_insert in Hk. destruct (decide (k' = k)) as [->|Hne].
  - inversion Hk; subst. now apply Hnew.
  - now apply Hold.
Qed.

(** X9. The index is keyed by the entries' own identifiers: whatever is
    stored under a key has an [id] that hashes to that key ([None] for an
    entry without [id]). *)
Theorem index_is_keyed_by_id jsonobj track_cache k value :
  build_index jsonobj = Ok track_cache ->
  track_cache !! k = Some value ->
  own_key value = Ok k.
Proof.
  unfold build_index, rbind. intros H.
  destruct (index_tracks jsonobj ∅) as [c|] eqn:Et; [|discriminate].
  revert k value.
  assert (forall k v, c !! k = Some v -> own_key v = Ok k) as Hc.
  { revert Et. unfold index_tracks.
    apply (foldR_inv (fun c => forall k v, c !! k = Some v -> own_key v = Ok k)).
    - intros a value a' Ha Hstep. unfold rbind in Hstep.
      destruct (dict_get value "id") as [id|] eqn:Eid; [|discriminate].
      apply (cache_store_inv _ _ _ _ _ Hstep); [|exact Ha].
      intros k Hk. unfold own_key, rbind. now rewrite Eid.
    - intros k v Hk. now rewrite lookup_empty in Hk. }
  revert H. unfold index_albums.
  apply (foldR_inv (fun c => forall k v, c !! k = Some v -> own_key v = Ok k));
    [|exact Hc].
  intros a alb a' Ha Hstep. unfold index_album, rbind in Hstep.
  destruct (getitem alb "tracks") as [tracks|]; [|discriminate].
  destruct (getitem tracks "items") as [items|]; [|discriminate].
  destruct (py_iter items) as [l|]; [|discriminate].
  revert Hstep.
  apply (foldR_inv (fun c => forall k v, c !! k = Some v -> own_key v = Ok k));
    [|exact Ha].
  intros b track b' Hb Hstep. unfold rbind in Hstep.
  destruct (setitem track "album" alb) as [t|]; [|discriminate].
  destruct (dict_get t "id") as [id|] eqn:Eid; [|discriminate].
  apply (cache_store_inv _ _ _ _ _ Hstep); [|exact Hb].
  intros k Hk. unfold own_key, rbind. now rewrite Eid.
Qed.

Lemma index_is_keyed_by_id_witness :
  own_key (dict_as_entry (sample_track "a1" "One" 1)
             (sample_album [sample_track "a1" "One" 1;
                            sample_track "a2" "Two" 2]))
  = Ok (KStr "a1").
Proof.
  apply (index_is_keyed_by_id sample_document sample_cache).
  - vm_compute. reflexivity.
  - vm_compute. reflexivity.
Defined.

Lemma dict_find_set_same k v d : dict_find k (dict_set k v d) = Some v.
Proof.
  induction d as [|[k' v'] d IH]; simpl.
  - now rewrite String.eqb_refl.
  - destruct (String.eqb k k') eqn:E; simpl; rewrite ?String.eqb_refl, ?E;
      [reflexivity|exact IH].
Qed.

(** X10. Nothing is invented by the index: every entry is a track of the
    document that has an [id], stored as it is, or a track of an album of
    the document, stored with that album as its [album] field. *)
Theorem index_entries_come_from_document jsonobj track_cache k value :
  build_index jsonobj = Ok track_cache ->
  track_cache !! k = Some value ->
  In value (find_where "track" "id" jsonobj) \/
  exists alb tracks track,
    In alb (find_where "album" "tracks" jsonobj) /\
    album_tracks alb = Ok tracks /\
    In track tracks /\
    setitem track "album" alb = Ok value /\
    getitem value "album" = Ok alb.
Proof.
  set (Q := fun v : pyval =>
              In v (find_where "track" "id" jsonobj) \/
              exists alb tracks track,
                In alb (find_where "album" "tracks" jsonobj) /\
                album_tracks alb = Ok tracks /\
                In track tracks /\
                setitem track "album" alb = Ok v /\
                getitem v "album" = Ok alb).
  unfold build_index, rbind. intros H.
  destruct (index_tracks jsonobj ∅) as [c|] eqn:Et; [|discriminate].
  revert k value. change (forall k v, track_cache !! k = Some v -> Q v).
  assert (forall k v, c !! k = Some v -> Q v) as Hc.
  { revert Et. unfold index_tracks.
    apply (foldR_inv_each (fun c => forall k v, c !! k = Some v -> Q v)).
    - intros a value a' Hin Ha Hstep. unfold rbind in Hstep.
      destruct (dict_get value "id") as [id|]; [|discriminate].
      apply (cache_store_inv (fun _ v => Q v) _ _ _ _ Hstep); [|exact Ha].
      intros _ _. now left.
    - intros k v Hk. now rewrite lookup_empty in Hk. }
  revert H. unfold index_albums.
  apply (foldR_inv_each (fun c => forall k v, c !! k = Some v -> Q v));
    [|exact Hc].
  intros a alb a' Halb Ha Hstep. unfold index_album in Hstep.
  assert (exists l, album_tracks alb = Ok l /\
                    foldR (fun c track =>
                             (t <-? setitem track "album" alb;
                              id <-? dict_get t "id";
                              cache_store id t c)%res) l a = Ok a')
    as (l & Hl & Hfold).
  { unfold album_tracks. unfold rbind in *.
    destruct (getitem alb "tracks") as [tracks|]; [|discriminate].
    destruct (getitem tracks "items") as [items|]; [|discriminate].
    destruct (py_iter items) as [l|]; [|discriminate].
    now exists l. }
  revert Hfold.
  apply (foldR_inv_each (fun c => forall k v, c !! k = Some v -> Q v));
    [|exact Ha].
  intros b track b' Hin Hb Hstep'. unfold rbind in Hstep'.
  destruct (setitem track "album" alb) as [t|] eqn:Eset; [|discriminate].
  destruct (dict_get t "id") as [id|]; [|discriminate].
  apply (cache_store_inv (fun _ v => Q v) _ _ _ _ Hstep'); [|exact Hb].
  intros _ _. right. exists alb, l, track. repeat split; try assumption.
  destruct track; try discriminate. simpl in Eset. inversion Eset; subst.
  simpl. now rewrite dict_find_set_same.
Qed.

Lemma index_entries_come_from_document_witness :
  In (dict_as_entry (sample_track "a2" "Two" 2)
        (sample_album [sample_track "a1" "One" 1; sample_track "a2" "Two" 2]))
     (find_where "track" "id" sample_document) \/
  exists alb tracks track,
    In alb (find_where "album" "tracks" sample_document) /\
    album_tracks alb = Ok tracks /\
    In track tracks /\
    setitem track "album" alb
    = Ok (dict_as_entry (sample_track "a2" "Two" 2)
            (sample_album [sample_track "a1" "One" 1;
                           sample_track "a2" "Two" 2])) /\
    getitem (dict_as_entry (sample_track "a2" "Two" 2)
               (sample_album [sample_track "a1" "One" 1;
                              sample_track "a2" "Two" 2])) "album"
    = Ok alb.
Proof.
  apply (index_entries_come_from_document sample_document sample_cache
           (KStr "a2")).
  - vm_compute. reflexivity.
  - vm_compute. reflexivity.
Defined.

(** ** The export, further *)

Lemma add_song_name folder uri folder' :
  add_song folder uri = Ok folder' -> name folder' = name folder.
Proof.
  unfold add_song. destruct uri; try discriminate.
  destruct (String.prefix track_prefix s); intros H; now inversion H.
Qed.

Lemma collect_unfold is_album nm p :
  collect is_album nm p
  = (l <-? candidate_tracks is_album p;
     foldR (fun folder t => (uri <-? track_uri t; add_song folder uri)) l
           (Folder_init nm))%res.
Proof.
  unfold collect, candidate_tracks, rbind.
  destruct (if is_album then _ else _); [|reflexivity].
  now destruct (py_iter _).
Qed.

Lemma collect_songs l : forall acc folder,
  foldR (fun folder t => (uri <-? track_uri t; add_song folder uri)%res) l acc
  = Ok folder ->
  name folder = name acc /\
  exists uris,
    Forall2 (fun t u => track_uri t = Ok (PStr u)) l uris /\
    songs folder = songs acc ++ List.filter is_track_uri uris.
Proof.
  induction l as [|t l IH]; simpl; intros acc folder H.
  - inversion H; subst. split; [reflexivity|].
    exists []. split; [constructor|now rewrite app_nil_r].
  - unfold rbind in H.
    destruct (track_uri t) as [uri|] eqn:Eu; [|discriminate].
    destruct (add_song acc uri) as [acc'|] eqn:Ea; [|discriminate].
    destruct (IH acc' folder H) as (Hname & uris & Huris & Hsongs).
    split; [rewrite Hname; exact (add_song_name _ _ _ Ea)|].
    unfold add_song in Ea. destruct uri; try discriminate.
    exists (s :: uris). split; [now constructor|].
    rewrite Hsongs. simpl. unfold is_track_uri at 2.
    destruct (String.prefix track_prefix s); inversion Ea; subst; simpl;
      [now rewrite <- app_assoc|reflexivity].
Qed.

(** X11. The songs of a folder are the URIs of the entries of the track
    list that start with [spotify:track:], in the order of the list and
    with their repetitions; the folder bears the name it was given.  ([uri]
    is read from the entry, or from its [track] when the entry has
    none.) *)
Theorem songs_are_the_track_uris_in_order is_album nm p folder :
  collect is_album nm p = Ok folder ->
  name folder = nm /\
  exists tracks uris,
    candidate_tracks is_album p = Ok tracks /\
    Forall2 (fun t u => track_uri t = Ok (PStr u)) tracks uris /\
    songs folder = List.filter is_track_uri uris.
Proof.
  rewrite collect_unfold. unfold rbind. intros H.
  destruct (candidate_tracks is_album p) as [l|]; [|discriminate].
  destruct (collect_songs l _ _ H) as (Hname & uris & Huris & Hsongs).
  split; [exact Hname|]. now exists l, uris.
Qed.

Lemma songs_are_the_track_uris_in_order_witness :
  name sample_playlist_folder = PStr "Mine" /\
  exists tracks uris,
    candidate_tracks false (sample_playlist "Mine" "me") = Ok tracks /\
    Forall2 (fun t u => track_uri t = Ok (PStr u)) tracks uris /\
    songs sample_playlist_folder = List.filter is_track_uri uris.
Proof.
  apply (songs_are_the_track_uris_in_order false (PStr "Mine")
           (sample_playlist "Mine" "me") sample_playlist_folder).
  reflexivity.
Defined.

Lemma collect_name is_album nm p folder :
  collect is_album nm p = Ok folder -> name folder = nm.
Proof.
  rewrite collect_unfold. unfold rbind. intros H.
  destruct (candidate_tracks is_album p) as [l|]; [|discriminate].
  now destruct (collect_songs l _ _ H).
Qed.

(** X12. With a name filter, a candidate is exported only when the filter,
    in lower case, occurs in its folder name, in lower case, or when the
    filter is exactly its [id]. *)
Theorem name_filter_keeps_matches w args f folders p folder :
  filter_arg args = Some f ->
  f <> "" ->
  export_one w args folders p = Ok (folders ++ [folder]) ->
  exists n,
    name folder = PStr n /\
    (is_substring (str_lower args f) (str_lower args n) = true \/
     getitem p "id" = Ok (PStr f)).
Proof.
  intros Hf Hne H. unfold export_one, rbind in H.
  destruct (py_contains "album" p) as [is_album|]; [|discriminate].
  destruct (if is_album then _ else _) as [folder_name|]; [|discriminate].
  destruct (skipped_by_filter args folder_name p) as [[|]|] eqn:Es;
    [inversion H as [H']; symmetry in H'; now apply app_one_neq in H'
    | |discriminate].
  destruct (skipped_by_owner args p) as [[|]|];
    [inversion H as [H']; symmetry in H'; now apply app_one_neq in H'
    | |discriminate].
  destruct (collect is_album folder_name p) as [fd|] eqn:Ec; [|discriminate].
  apply collect_name in Ec.
  destruct (songs fd); inversion H as [H'];
    [symmetry in H'; now apply app_one_neq in H'|].
  apply app_inj_tail in H' as [_ ->].
  unfold skipped_by_filter in Es. rewrite Hf in Es.
  destruct f as [|a f]; [congruence|].
  destruct folder_name as [| | |n| |]; try discriminate.
  exists n. split; [exact Ec|].
  destruct (is_substring _ _); [now left|right]. simpl in Es.
  unfold rbind in Es.
  destruct (py_contains "id" p) as [[|]|]; try discriminate.
  destruct (getitem p "id") as [id|]; [|discriminate].
  inversion Es as [Heq]. apply negb_false_iff in Heq.
  apply py_eqb_str in Heq. now subst.
Qed.

Lemma name_filter_keeps_matches_witness :
  exists n,
    name sample_album_folder = PStr n /\
    (is_substring (str_lower everything_like_titl "TITL")
                  (str_lower everything_like_titl n) = true \/
     getitem sample_album_candidate "id" = Ok (PStr "TITL")).
Proof.
  apply (name_filter_keeps_matches sample_world everything_like_titl "TITL" []
           sample_album_candidate sample_album_folder).
  - reflexivity.
  - discriminate.
  - reflexivity.
Defined.

Lemma foldR_app {A B} (f : A -> B -> result A) l1 l2 a :
  foldR f (l1 ++ l2) a = (a1 <-? foldR f l1 a; foldR f l2 a1)%res.
Proof.
  revert a. induction l1 as [|b l1 IH]; intros a; simpl; [reflexivity|].
  unfold rbind at 1 3. destruct (f a b); [apply IH|reflexivity].
Qed.

(** What a candidate adds does not depend on the folders found so far. *)
Lemma export_one_from w args acc p :
  export_one w args acc p
  = (added <-? export_one w args [] p; Ok (acc ++ added))%res.
Proof.
  unfold export_one, rbind.
  destruct (py_contains "album" p) as [is_album|]; [|reflexivity].
  destruct (if is_album then _ else _) as [folder_name|]; [|reflexivity].
  destruct (skipped_by_filter args folder_name p) as [[|]|];
    [now rewrite app_nil_r| |reflexivity].
  destruct (skipped_by_owner args p) as [[|]|];
    [now rewrite app_nil_r| |reflexivity].
  destruct (collect is_album folder_name p) as [fd|]; [|reflexivity].
  destruct (songs fd); [now rewrite app_nil_r|reflexivity].
Qed.

Lemma export_loop_from w args l : forall acc,
  foldR (export_one w args) l acc
  = (added <-? foldR (export_one w args) l []; Ok (acc ++ added))%res.
Proof.
  induction l as [|p l IH]; intros acc; simpl.
  - now rewrite app_nil_r.
  - rewrite (export_one_from w args acc p). unfold rbind at 1 2 4.
    destruct (export_one w args [] p) as [add1|]; [|reflexivity].
    rewrite (IH (acc ++ add1)), (IH add1). unfold rbind.
    destruct (foldR (export_one w args) l []); [|reflexivity].
    now rewrite app_assoc.
Qed.

(** X13. Exporting playlists and albums together gives the folders of the
    playlists followed by the folders of the albums: what each selection
    gives when exported alone, in the same order. *)
Theorem playlists_are_exported_before_albums w args jsonobj folders :
  export_folders w (with_flags args true true) jsonobj = Ok folders ->
  exists ps als,
    export_folders w (with_flags args true false) jsonobj = Ok ps /\
    export_folders w (with_flags args false true) jsonobj = Ok als /\
    folders = ps ++ als.
Proof.
  unfold export_folders, things_to_export, rbind. simpl.
  destruct (getitem jsonobj "playlists") as [v1|]; [|discriminate].
  destruct (py_iter v1) as [l1|]; [|discriminate].
  destruct (getitem jsonobj "albums") as [v2|]; [|discriminate].
  destruct (py_iter v2) as [l2|]; [|discriminate].
  rewrite app_nil_r. change (@nil pyval ++ l2) with l2.
  change (export_one w (with_flags args true true))
    with (export_one w args).
  change (export_one w (with_flags args true false))
    with (export_one w args).
  change (export_one w (with_flags args false true))
    with (export_one w args).
  rewrite foldR_app. unfold rbind.
  destruct (foldR (export_one w args) l1 []) as [ps|]; [|discriminate].
  rewrite export_loop_from. unfold rbind.
  destruct (foldR (export_one w args) l2 []) as [als|]; [|discriminate].
  intros H. inversion H; subst. now exists ps, als.
Qed.

Lemma playlists_are_exported_before_albums_witness :
  exists ps als,
    export_folders sample_world (with_flags playlists_of_me true false)
      mixed_document = Ok ps /\
    export_folders sample_world (with_flags playlists_of_me false true)
      mixed_document = Ok als /\
    [sample_playlist_folder; sample_album_folder] = ps ++ als.
Proof.
  apply (playlists_are_exported_before_albums sample_world playlists_of_me
           mixed_document).
  reflexivity.
Defined.

(** X14. With neither [--playlists] nor [--albums] nothing is exported,
    whatever the document, even one that is not an export at all, and the
    script stops with status 1. *)
Theorem nothing_selected_stops_the_script w args jsonobj bash_exists force :
  playlists args = false ->
  albums args = false ->
  export_folders w args jsonobj = Ok [] /\
  folders_to_write w args jsonobj bash_exists force = Raise (SystemExit 1).
Proof.
  intros Hp Ha.
  assert (export_folders w args jsonobj = Ok []) as He.
  { unfold export_folders, things_to_export. now rewrite Hp, Ha. }
  split; [exact He|].
  unfold folders_to_write. now rewrite He.
Qed.

Lemma nothing_selected_stops_the_script_witness :
  export_folders sample_world (with_flags albums_of_me false false) PNone
  = Ok [] /\
  folders_to_write sample_world (with_flags albums_of_me false false) PNone
    false true
  = Raise (SystemExit 1).
Proof.
  apply (nothing_selected_stops_the_script sample_world
           (with_flags albums_of_me false false) PNone false true);
    reflexivity.
Defined.

Lemma unfiltered_export_loop w args l : forall acc out,
  filter_arg args = None ->
  owner args = None ->
  foldR (export_one w args) l acc = Ok out ->
  exists all,
    Forall2 (fun p fd => candidate_folder w p = Ok fd) l all /\
    out = acc ++ List.filter has_songs all.
Proof.
  induction l as [|p l IH]; simpl; intros acc out Hf Ho H.
  - inversion H; subst. exists []. split; [constructor|now rewrite app_nil_r].
  - unfold rbind in H.
    destruct (export_one w args acc p) as [acc1|] eqn:E1; [|discriminate].
    destruct (IH _ _ Hf Ho H) as (all & Hall & ->).
    unfold export_one, skipped_by_filter, skipped_by_owner in E1.
    rewrite Hf, Ho in E1. unfold rbind in E1.
    destruct (py_contains "album" p) as [is_album|] eqn:Ea; [|discriminate].
    destruct (if is_album then _ else _) as [folder_name|] eqn:En;
      [|discriminate].
    destruct (collect is_album folder_name p) as [fd|] eqn:Ec; [|discriminate].
    exists (fd :: all). split.
    + constructor; [|exact Hall].
      unfold candidate_folder, rbind. now rewrite Ea, En, Ec.
    + simpl.
      change (has_songs fd)
        with (match songs fd with [] => false | _ :: _ => true end).
      destruct (songs fd); inversion E1; subst; simpl;
        [reflexivity|now rewrite <- app_assoc].
Qed.

(** X15. With no name filter and no owner filter, every selected candidate
    that has at least one song is exported, in the order of the document:
    the folders exported are the folders of the candidates, those without
    songs left out. *)
Theorem unfiltered_export_is_complete w args jsonobj folders :
  filter_arg args = None ->
  owner args = None ->
  export_folders w args jsonobj = Ok folders ->
  exists things all,
    things_to_export args jsonobj = Ok things /\
    Forall2 (fun p fd => candidate_folder w p = Ok fd) things all /\
    folders = List.filter has_songs all.
Proof.
  intros Hf Ho H. unfold export_folders, rbind in H.
  destruct (things_to_export args jsonobj) as [things|]; [|discriminate].
  destruct (unfiltered_export_loop w args things [] folders Hf Ho H)
    as (all & Hall & ->).
  now exists things, all.
Qed.

Lemma unfiltered_export_is_complete_witness :
  exists things all,
    things_to_export everything mixed_document = Ok things /\
    Forall2 (fun p fd => candidate_folder sample_world p = Ok fd) things all /\
    [sample_playlist_folder; sample_album_folder] = List.filter has_songs all.
Proof.
  apply (unfiltered_export_is_complete sample_world everything mixed_document);
    reflexivity.
Defined.

(** ** [sanitize_filename] *)

Lemma sanitize_char_eq u c :
  sanitize_char u c = [if kept u c then c else underscore].
Proof.
  unfold sanitize_char. destruct (kept u c); [reflexivity|].
  simpl. now rewrite andb_false_r.
Qed.


Lemma kept_underscore u : kept u underscore = true.
Proof. reflexivity. Qed.

(** X17. Sanitizing a name that is already sanitized changes nothing. *)
Theorem sanitize_chars_idempotent u fn :
  sanitize_chars u (sanitize_chars u fn) = sanitize_chars u fn.
Proof.
  unfold sanitize_chars. induction fn as [|c fn IH]; [reflexivity|].
  simpl. rewrite sanitize_char_eq. simpl. rewrite sanitize_char_eq, IH.
  destruct (kept u c) eqn:E; [now rewrite E|].
  now rewrite kept_underscore.
Qed.

Lemma sanitize_chars_kept u fn :
  Forall (fun c => kept u c = true) (sanitize_chars u fn).
Proof.
  unfold sanitize_chars. induction fn as [|c fn IH]; [constructor|].
  simpl. rewrite sanitize_char_eq. simpl. constructor; [|exact IH].
  destruct (kept u c) eqn:E; [exact E|apply kept_underscore].
Qed.

Lemma quote_chars (P : N -> Prop) s :
  P single_quote -> P double_quote -> Forall P s -> Forall P (quote s).
Proof.
  intros Hs Hd H. unfold quote.
  destruct s as [|c s]; [now repeat constructor|].
  destruct (forallb shell_safe (c :: s)); [exact H|].
  apply Forall_app. split; [now repeat constructor|].
  apply Forall_app. split; [|now repeat constructor].
  induction H as [|x l Hx _ IH]; [constructor|].
  simpl. destruct (N.eqb x single_quote).
  - repeat (apply List.Forall_cons; [assumption|]). exact IH.
  - now constructor.
Qed.

(** X18. The folder name that goes into the script is never empty and
    holds only letters, digits and characters of [validchars]; so it holds
    no slash, no dollar sign, no backquote, no backslash and no line
    break. *)
Theorem sanitized_name_is_tame u fn :
  sanitize_filename u fn <> [] /\
  Forall (fun c => kept u c = true) (sanitize_filename u fn) /\
  Forall (fun c => ~ In c [47; 36; 96; 92; 10; 13; 0]%N)
         (sanitize_filename u fn).
Proof.
  assert (Forall (fun c => kept u c = true) (sanitize_filename u fn)) as Hk.
  { unfold sanitize_filename.
    apply quote_chars; [reflexivity|reflexivity|apply sanitize_chars_kept]. }
  split; [|split; [exact Hk|]].
  - unfold sanitize_filename, quote.
    destruct (sanitize_chars u fn) as [|c s]; [discriminate|].
    destruct (forallb shell_safe (c :: s)); discriminate.
  - revert Hk. apply List.Forall_impl. intros c Hc Hin.
    simpl in Hin.
    repeat (destruct Hin as [<-|Hin]; [discriminate Hc|]). destruct Hin.
Qed.

Example sample_name_is_sanitized :
  sanitize_filename ascii_only sample_name
  = [39; 65; 67; 95; 68; 67; 32; 95; 32; 76; 105; 118; 101; 39]%N.
Proof. reflexivity. Qed.
